(** * Weekly schedule tabulation (schedule/utils/week_table.py)

    A shallow embedding of the day partitioner and the table builder of
    django-lass-schedule, with the local-time normaliser they rest on and
    the gap filler they are fed by.

    Conventions.
    - A datetime (aware or naive) is a count of microseconds, a [Z]; a
      timedelta is a [Z] too.  An aware datetime is its UTC instant, a
      naive local datetime is the wall-clock reading.
    - Python exceptions are the constructors of [exn]; code that can raise
      returns a [result].
    - Lists mutated in place ([done_day_lists], [day_list], the table) are
      threaded through as explicit state. *)

From Equations Require Import Equations.
From stdpp Require Import base option list gmap sets sorting strings.
From Stdlib Require Import ZArith Lia.

#[local] Open Scope Z_scope.

(** ** Exceptions and results *)

Inductive exn : Type :=
| IndexError
| TypeError
| ValueError
| ScheduleInconsistencyError
| AmbiguousTimeError
| NonExistentTimeError.

#[global] Instance exn_eq_dec : EqDecision exn.
Proof. solve_decision. Defined.

Inductive result (A : Type) : Type :=
| Ok (a : A)
| Raise (e : exn).
Arguments Ok {A} a.
Arguments Raise {A} e.

(** The error monad: [x ← m; k] runs [k] unless [m] raised. *)
#[global] Instance result_ret : MRet result := fun _ a => Ok a.
#[global] Instance result_bind : MBind result := fun _ _ k m =>
  match m with
  | Ok a => k a
  | Raise e => Raise e
  end.

(** Keeps the value of a test beside the equation that it was the value. *)
Definition inspect {A : Type} (a : A) : {b : A | a = b} := exist _ a eq_refl.

(** [for x in xs: st = body(st, x)], stopping at the first exception. *)
Fixpoint for_each {S A : Type} (body : S -> A -> result S) (st : S) (xs : list A)
  : result S :=
  match xs with
  | [] => Ok st
  | x :: xs' => st' ← body st x; for_each body st' xs'
  end.

(** ** Time *)

(** [DAY = timezone.timedelta(days=1)], in microseconds. *)
Definition DAY : Z := 86400000000.

(** [timezone.timedelta(days=n)]. *)
Definition timedelta_days (n : Z) : Z := n * DAY.

Definition SCHEDULE_DAY_OFFSET : nat := 1.
Definition SCHEDULE_TIME_COL : nat := 0.

(** Modelled from the spec: the platform's time zone database, to which
    the normaliser delegates (django.utils.timezone and pytz are not part
    of the sources).  The current zone is the UTC offset in force at each
    instant, and the finite list of offsets the zone ever uses. *)
Record tzinfo : Type := {
  utcoffset : Z -> Z;
  zone_offsets : list Z
}.

(** ** Timeslots *)

(** Modelled from the spec: the Timeslot entity (schedule/models.py is not
    part of the sources at hand); [end_time()] is [start_time + duration],
    and [range_start()], [range_end()] are the slot's two boundaries. *)
Record Timeslot : Type := {
  show_type_name : string;
  start_time : Z;
  duration : Z
}.

Definition end_time (slot : Timeslot) : Z := start_time slot + duration slot.
Definition range_start (slot : Timeslot) : Z := start_time slot.
Definition range_end (slot : Timeslot) : Z := end_time slot.

#[global] Instance Timeslot_eq_dec : EqDecision Timeslot.
Proof. solve_decision. Defined.

Section WeekTable.

Variable tz : tzinfo.

(** ** Local-time normaliser *)

(** [nld]: to the current zone's wall clock, then drop the zone. *)
Definition nld (date : Z) : Z := date + utcoffset tz date.


(** Modelled from the spec: [timezone.make_aware(nldate, tz)], the
    platform's resolution of a naive local datetime, as pytz's
    [tz.localize(nldate, is_dst=None)] does it: every offset of the zone
    is tried, and an instant is kept when that offset is in force at it.
    One hit is the answer; none or several raise. *)
Definition localize_candidates (nldate : Z) : list Z :=
  remove_dups (filter (fun t => bool_decide (nld t = nldate))
                      ((fun off => nldate - off) <$> zone_offsets tz)).

Definition make_aware (nldate : Z) : result Z :=
  match localize_candidates nldate with
  | [t] => Ok t
  | [] => Raise NonExistentTimeError
  | _ => Raise AmbiguousTimeError
  end.

(** [un_nld]: naive local datetime to aware datetime. *)
Definition un_nld (nldate : Z) : result Z := make_aware nldate.

(** ** Day partitioner *)

(** [rotate_day] appends to [done_day_lists] in place; the list after the
    call is returned beside the new day's initial list. *)
Definition rotate_day (day_end : Z) (day_list : list Timeslot)
    (done_day_lists : list (list Timeslot))
  : result (list Timeslot * list (list Timeslot)) :=
  match day_list with
  | [] => Raise ScheduleInconsistencyError
  | _ :: _ =>
      let done_day_lists := done_day_lists ++ [day_list] in
      match last day_list with           (* day_list[-1] *)
      | None => Raise IndexError
      | Some last_show =>
          Ok (if nld (end_time last_show) >? day_end then [last_show] else [],
              done_day_lists)
      end
  end.

(** The local variables of [split_days]. *)
Record split_state : Type := SplitState {
  done_day_lists : list (list Timeslot);
  day_list : list Timeslot;
  partitions : gset Z;
  day_start : Z;
  day_end : Z
}.

(** How many more days end at or before [nlslot]: the bound on the
    rotations still to come. *)
Definition days_behind (nlslot : Z) (st : split_state) : nat :=
  Z.to_nat ((nlslot - day_end st) / DAY + 1).

(** [while day_end <= nlslot: day_list = rotate_day(...); day_start, day_end = ...] *)
Equations rotate_while (nlslot : Z) (st : split_state) : result split_state
  by wf (days_behind nlslot st) lt :=
  rotate_while nlslot st with inspect (day_end st <=? nlslot) := {
    | exist _ false _ := Ok st
    | exist _ true Hle
        with rotate_day (day_end st) (day_list st) (done_day_lists st) := {
        | Raise e := Raise e
        | Ok (dl, dn) :=
            rotate_while nlslot
              (SplitState dn dl (partitions st) (day_end st) (day_end st + DAY)) } }.
Next Obligation.
  intros. apply Z.leb_le in Hle. unfold days_behind; cbn [day_end].
  replace (nlslot - (day_end st + DAY)) with (nlslot - day_end st + (-1) * DAY) by lia.
  rewrite Z.div_add by (unfold DAY; lia).
  assert (0 <= (nlslot - day_end st) / DAY) by (apply Z.div_pos; unfold DAY; lia).
  lia.
Qed.

(** The body of [for slot in data]. *)
Definition split_slot (st : split_state) (slot : Timeslot) : result split_state :=
  let nlslot := nld (start_time slot) in
  st ← rotate_while nlslot st ;
  let day_list := day_list st ++ [slot] in
  let partitions :=
    if nlslot >? day_start st
    then partitions st ∪ {[ nlslot - day_start st ]}
    else partitions st in
  Ok (SplitState (done_day_lists st) day_list partitions (day_start st) (day_end st)).

Definition split_init (nlstart : Z) : split_state :=
  SplitState [] [] {[ timedelta_days 0 ]} nlstart (nlstart + DAY).

Definition split_days (nlstart : Z) (data : list Timeslot)
  : result (list (list Timeslot) * gset Z) :=
  st ← for_each split_slot (split_init nlstart) data ;
  Ok (done_day_lists st ++ [day_list st], partitions st).

(** ** Table builder *)

(** A table cell: the row's time (first column), [None], or
    [(slot, rows)]. *)
Inductive cell : Type :=
| CTime (t : Z)
| CNone
| CSlot (slot : Timeslot) (rows : Z).

(** [table[row][col]], when both indices are in range. *)
Definition cell_at (table : list (list cell)) (row col : nat) : option cell :=
  r ← table !! row; r !! col.

(** [make_row_date(table, days)(row)]:
    [table[row][SCHEDULE_TIME_COL] + timedelta(days=days)]. *)
Definition row_date (table : list (list cell)) (days row : nat) : result Z :=
  match table !! row with
  | None => Raise IndexError
  | Some r =>
      match r !! SCHEDULE_TIME_COL with
      | None => Raise IndexError
      | Some (CTime t) => Ok (t + timedelta_days (Z.of_nat days))
      | Some _ => Raise TypeError
      end
  end.

(** [make_add_to_table(table, days)(row, slot, rows)]:
    [table[row][col] = slot, rows], the table after the assignment. *)
Definition add_to_table (table : list (list cell)) (days row : nat)
    (slot : Timeslot) (rows : Z) : result (list (list cell)) :=
  let col := (SCHEDULE_DAY_OFFSET + days)%nat in
  match table !! row with
  | None => Raise IndexError
  | Some r =>
      if bool_decide (col < length r)%nat
      then Ok (<[row := <[col := CSlot slot rows]> r]> table)
      else Raise IndexError
  end.

(** [while row_date(current_row) < nlend: current_row += 1]: where the
    cursor is when the loop is left, and how it was left. *)
Equations advance_row (table : list (list cell)) (days : nat) (nlend : Z)
    (current_row : nat) : nat * result unit
  by wf (length table - current_row)%nat lt :=
  advance_row table days nlend current_row
    with inspect (row_date table days current_row) := {
    | exist _ (Raise e) _ := (current_row, Raise e)
    | exist _ (Ok t) Hrow with t <? nlend := {
        | true := advance_row table days nlend (S current_row)
        | false := (current_row, Ok ()) } }.
Next Obligation.
  intros. unfold row_date in Hrow.
  destruct (table !! current_row) eqn:E; [|discriminate].
  apply lookup_lt_Some in E. lia.
Qed.

(** The body of [for slot in day]; the state is the table and
    [current_row]. *)
Definition place_slot (days : nat) (st : list (list cell) * nat) (slot : Timeslot)
  : result (list (list cell) * nat) :=
  let '(table, current_row) := st in
  let start_row := current_row in
  let nlend := nld (end_time slot) in
  let '(current_row, exit) := advance_row table days nlend current_row in
  _ ← match exit with
      | Raise IndexError => Ok ()   (* hit_bottom = True *)
      | Raise e => Raise e
      | Ok _ =>
          t ← row_date table days current_row;
          if t >? nlend
          then
            (* the message is formatted first, and [hit_bottom] is False
               here, so [row_date(current_row + 1)] is evaluated *)
            _ ← row_date table days (S current_row);
            Raise ScheduleInconsistencyError
          else Ok ()
      end;
  table ← add_to_table table days start_row slot
            (Z.of_nat current_row - Z.of_nat start_row);
  Ok (table, current_row).

Definition populate_table_day (table : list (list cell)) (days : nat)
    (day : list Timeslot) : result (list (list cell)) :=
  '(table, _) ← for_each (place_slot days) (table, 0%nat) day;
  Ok table.

(** [enumerate(xs)]. *)
Definition enumerate {A : Type} (xs : list A) : list (nat * A) :=
  imap (fun i x => (i, x)) xs.

Definition populate_table (table : list (list cell))
    (data_lists : list (list Timeslot)) : result (list (list cell)) :=
  for_each (fun table '(i, day) => populate_table_day table i day)
           table (enumerate data_lists).

(** [sorted(partitions)]. *)
Definition sorted (partitions : gset Z) : list Z :=
  merge_sort Z.le (elements partitions).

Definition empty_table (nlstart : Z) (partitions : gset Z) (n_cols : nat)
  : list (list cell) :=
  (fun i => [CTime (nlstart + i)] ++ replicate n_cols CNone) <$> sorted partitions.

(** ** Orchestration *)

(** [schedule.data]: an error signifier or the filled timeslot list. *)
Inductive schedule_data : Type :=
| ErrorSignifier (message : string)
| Slots (data : list Timeslot).

Record Schedule : Type := {
  start : Z;
  data : schedule_data
}.

(** What [tabulate] returns: the string it was given, or a table. *)
Inductive tabulated : Type :=
| PassedThrough (message : string)
| Table (table : list (list cell)).

Definition tabulate (schedule : Schedule) : result tabulated :=
  match data schedule with
  | ErrorSignifier message => Ok (PassedThrough message)
  | Slots slots =>
      let nlstart := nld (start schedule) in
      '(data_lists, partitions) ← split_days nlstart slots;
      let table := empty_table nlstart partitions (length data_lists) in
      table ← populate_table table data_lists;
      Ok (Table table)
  end.

End WeekTable.

(** * Gap filler *)

(** Modelled from the spec: the gap filler [fill] of
    schedule/utils/filler.py, which is not among the sources (its tests
    are).  A filler slot covers [[a, b)]; the walk inserts one before the
    first slot, between two slots and after the last slot wherever the
    end reached so far is before what comes next; the slots themselves
    are kept, in order. *)
Definition filler_slot (a b : Z) : Timeslot :=
  {| show_type_name := "filler"; start_time := a; duration := b - a |}.

Fixpoint fill_from (reached : Z) (timeslots : list Timeslot) (end_ : Z)
  : list Timeslot :=
  match timeslots with
  | [] => if reached <? end_ then [filler_slot reached end_] else []
  | slot :: rest =>
      (if reached <? range_start slot
       then [filler_slot reached (range_start slot)]
       else [])
      ++ slot :: fill_from (range_end slot) rest end_
  end.

Definition fill (timeslots : list Timeslot) (start end_ : Z)
  : result (list Timeslot) :=
  if start >? end_ then Raise ValueError
  else
    match timeslots with
    | [] => Ok [filler_slot start end_]
    | _ :: _ => Ok (fill_from start timeslots end_)
    end.

(** Sorted by start, and no slot begins before the one before it ends. *)
Definition ordered_non_overlapping (timeslots : list Timeslot) : Prop :=
  forall i p q, timeslots !! i = Some p -> timeslots !! S i = Some q ->
    range_start p <= range_start q /\ range_end p <= range_start q.

(** Each slot ends where the next begins. *)
Definition contiguous (timeslots : list Timeslot) : Prop :=
  forall i p q, timeslots !! i = Some p -> timeslots !! S i = Some q ->
    range_end p = range_start q.

(** * Vocabulary of the properties *)

Section Vocabulary.

Variable tz : tzinfo.

Abbreviation nlslot s := (nld tz (start_time s)).
Abbreviation nlend s := (nld tz (end_time s)).

(** ** Of the day partitioner *)

(** The state a rotation leaves: the carried list, the grown list of
    closed days, the next day's bounds. *)
Definition rotated (st : split_state) (dl : list Timeslot)
    (dn : list (list Timeslot)) : split_state :=
  SplitState dn dl (partitions st) (day_end st) (day_end st + DAY).

(** The day lists so far: the closed ones, then the open one. *)
Definition days_of (st : split_state) : list (list Timeslot) :=
  done_day_lists st ++ [day_list st].

(** What [split_days] keeps true of its variables, for a schedule that
    starts at [nlstart]. *)
Record split_inv (nlstart : Z) (st : split_state) : Prop := {
  inv_start :
    day_start st = nlstart + Z.of_nat (length (done_day_lists st)) * DAY;
  inv_end : day_end st = day_start st + DAY;
  inv_closed : forall L, L ∈ done_day_lists st -> L <> [];
  inv_before : forall j L s, days_of st !! j = Some L -> s ∈ L ->
    nlslot s < nlstart + (Z.of_nat j + 1) * DAY;
  inv_carry : forall j L L',
    days_of st !! j = Some L -> days_of st !! S j = Some L' ->
    exists s, last L = Some s /\
      (head L' = Some s <-> nlstart + (Z.of_nat j + 1) * DAY < nlend s);
  inv_zero : 0 ∈ partitions st;
  inv_offsets : forall x, x ∈ partitions st -> 0 <= x < DAY
}.

(** The state after [day_list.append(slot)] and the update of
    [partitions]. *)
Definition appended (st : split_state) (x : Timeslot) : split_state :=
  SplitState (done_day_lists st) (day_list st ++ [x])
    (if nlslot x >? day_start st
     then partitions st ∪ {[ nlslot x - day_start st ]}
     else partitions st)
    (day_start st) (day_end st).

(** The day a slot is put in, counted from the schedule's first day: the
    day its local start falls in, or the day of the slot before it when
    that one is later. *)
Definition next_day (nlstart : Z) (k : Z) (x : Timeslot) : Z :=
  Z.max k ((nlslot x - nlstart) / DAY).

(** The day of the last slot of [pre]. *)
Definition assigned_day (nlstart : Z) (pre : list Timeslot) : Z :=
  foldl (next_day nlstart) 0 pre.

(** The local start of the day that slot number [i] of [data] is put in. *)
Definition assigned_day_start (nlstart : Z) (data : list Timeslot) (i : nat) : Z :=
  nlstart + assigned_day nlstart (take (S i) data) * DAY.

(** The partitioner's loop over a prefix of the data. *)
Definition split_run (nlstart : Z) (pre : list Timeslot) : result split_state :=
  for_each (split_slot tz) (split_init nlstart) pre.

(** What the state owes to the slots processed so far. *)
Record prefix_inv (nlstart : Z) (pre : list Timeslot) (st : split_state) : Prop := {
  pre_last : last (day_list st) = last pre;
  pre_day : Z.of_nat (length (done_day_lists st)) = assigned_day nlstart pre;
  pre_offsets : forall x, x ∈ partitions st <->
    x = 0 \/ exists i s, pre !! i = Some s /\
      assigned_day_start nlstart pre i < nlslot s /\
      x = nlslot s - assigned_day_start nlstart pre i;
  pre_placed : forall i s, pre !! i = Some s ->
    exists L, days_of st !! Z.to_nat (assigned_day nlstart (take (S i) pre)) = Some L
              /\ s ∈ L
}.

(** Placing some slot of [data] closes an empty day: a day [d] that ends
    at or before the slot's local start, is not before the day of the slot
    placed just before, and has nothing in it, because no slot was placed
    yet, or because [d] is after the previous slot's day and that slot
    ends by the start of [d]. *)
Definition closes_empty_day (nlstart : Z) (data : list Timeslot) : Prop :=
  exists i x d,
    data !! i = Some x /\
    assigned_day nlstart (take i data) <= d /\
    nlstart + (d + 1) * DAY <= nlslot x /\
    match last (take i data) with
    | None => True
    | Some p =>
        assigned_day nlstart (take i data) < d /\ nlend p <= nlstart + d * DAY
    end.

(** ** Of the table builder *)

(** Where the cursor is after a slot that started at row [start]. *)
Definition stop_row (table : list (list cell)) (days : nat) (start : nat)
    (slot : Timeslot) : nat :=
  (advance_row table days (nlend slot) start).1.

(** Where the cursor is after the slots of [day], from row 0. *)
Definition cursor_after (table : list (list cell)) (days : nat)
    (day : list Timeslot) : nat :=
  foldl (stop_row table days) 0%nat day.

(** The state of a day's column while its slots are placed: nothing at
    or below the cursor but, at the cursor, a slot of span zero; every
    span ends by the cursor and covers [None] cells only. *)
Record col_inv (table : list (list cell)) (c cur : nat) : Prop := {
  ci_cur : (cur <= length table)%nat;
  ci_below : forall r, (cur < r < length table)%nat ->
    cell_at table r c = Some CNone;
  ci_at : (cur < length table)%nat ->
    cell_at table cur c = Some CNone \/
    exists s, cell_at table cur c = Some (CSlot s 0);
  ci_spans : forall r s k, cell_at table r c = Some (CSlot s k) ->
    0 <= k /\ Z.of_nat r + k <= Z.of_nat cur /\
    forall r', (r < r')%nat -> Z.of_nat r' < Z.of_nat r + k ->
      cell_at table r' c = Some CNone
}.

(** A column whose spans are sound: each populated cell [(slot, span)]
    has a span that is not negative and ends within the table, and the
    cells under it, as far as the span reaches, are [None]. *)
Definition well_spanned (table : list (list cell)) (c : nat) : Prop :=
  forall r s k, cell_at table r c = Some (CSlot s k) ->
    0 <= k /\ Z.of_nat r + k <= Z.of_nat (length table) /\
    forall r', (r < r')%nat -> Z.of_nat r' < Z.of_nat r + k ->
      cell_at table r' c = Some CNone.

(** Where each slot of a day is found in a table, and with what span:
    at the row the cursor was at when the slots before it had been
    placed, spanning the rows down to where the cursor went; said of the
    slots the cursor moved for. *)
Definition day_in_table (E table : list (list cell)) (days : nat)
    (day : list Timeslot) : Prop :=
  forall j s, day !! j = Some s ->
    let first_row := cursor_after E days (take j day) in
    let next_row := cursor_after E days (take (S j) day) in
    (first_row <= next_row)%nat /\
    ((first_row < next_row)%nat ->
     cell_at table first_row (SCHEDULE_DAY_OFFSET + days)
     = Some (CSlot s (Z.of_nat next_row - Z.of_nat first_row))).

End Vocabulary.

(** * Vocabulary of the further properties *)

Section FurtherVocabulary.

Variable tz : tzinfo.

(** Two tables of one frame: as many rows, the same cells present, the
    same time column. *)
Definition same_frame (table table' : list (list cell)) : Prop :=
  length table' = length table /\
  (forall r c, is_Some (cell_at table' r c) <-> is_Some (cell_at table r c)) /\
  (forall r, cell_at table' r SCHEDULE_TIME_COL = cell_at table r SCHEDULE_TIME_COL).

(** What differs between two tables is a slot pair, in a column for
    which [changed] holds. *)
Definition only_slots_written (changed : nat -> Prop)
    (table table' : list (list cell)) : Prop :=
  forall r c, cell_at table' r c = cell_at table r c \/
    (changed c /\ exists s k, cell_at table' r c = Some (CSlot s k)).

(** What a run keeps of a table, when it writes in the columns for which
    [changed] holds. *)
Definition kept (changed : nat -> Prop) : relation (list (list cell)) :=
  fun table table' =>
    same_frame table table' /\ only_slots_written changed table table'.

(** A day list without the slot it was handed by the day before: the
    head is dropped when it is the last slot of the list before. *)
Definition strip_carried (before : option Timeslot) (day : list Timeslot)
  : list Timeslot :=
  match before, day with
  | Some p, h :: rest => if decide (h = p) then rest else day
  | _, _ => day
  end.

(** The slots of the day lists, in order, each counted once. *)
Fixpoint uncarried (before : option Timeslot) (lists : list (list Timeslot))
  : list Timeslot :=
  match lists with
  | [] => []
  | day :: rest => strip_carried before day ++ uncarried (last day) rest
  end.

(** A schedule filled as [tabulate] expects it: the first slot starts
    before the first day ends and ends after the schedule starts; each
    slot ends where the next begins; each slot ends, on the local clock,
    after it starts; the last slot reaches the end of the day it is put
    in. *)
Record well_filled (nlstart : Z) (slots : list Timeslot) : Prop := {
  wf_first : forall x, head slots = Some x ->
    nld tz (start_time x) < nlstart + DAY /\ nlstart < nld tz (end_time x);
  wf_gap_free : contiguous slots;
  wf_positive : forall x, x ∈ slots ->
    nld tz (start_time x) < nld tz (end_time x);
  wf_last : forall x, last slots = Some x ->
    nlstart + (assigned_day tz nlstart slots + 1) * DAY <= nld tz (end_time x)
}.

(** What [split_days] keeps true of the day lists of such a schedule:
    every slot of a day ends after the day's start; of two neighbours in
    a day list the second starts where the first ends, at an offset that
    is among the row offsets; the last slot of a closed day reaches the
    day's end. *)
Record filled_inv (nlstart : Z) (st : split_state) : Prop := {
  fi_ends : forall k L b, days_of st !! k = Some L -> b ∈ L ->
    nlstart + Z.of_nat k * DAY < nld tz (end_time b) /\
    nld tz (start_time b) < nld tz (end_time b);
  fi_chain : forall k L i a b,
    days_of st !! k = Some L -> L !! i = Some a -> L !! S i = Some b ->
    nld tz (end_time a) = nld tz (start_time b) /\
    nld tz (start_time b) - (nlstart + Z.of_nat k * DAY) ∈ partitions st;
  fi_closed : forall k L a,
    done_day_lists st !! k = Some L -> last L = Some a ->
    nlstart + (Z.of_nat k + 1) * DAY <= nld tz (end_time a)
}.

(** A day list that fits the rows: each slot ends after [base], the
    day's start, and after its own start; of two neighbours the second
    starts where the first ends, at an offset from [base] that is among
    the row offsets; the last slot reaches the day's end. *)
Record day_filled (parts : gset Z) (base : Z) (day : list Timeslot) : Prop := {
  df_ends : forall b, b ∈ day ->
    base < nld tz (end_time b) /\ nld tz (start_time b) < nld tz (end_time b);
  df_chain : forall i a b, day !! i = Some a -> day !! S i = Some b ->
    nld tz (end_time a) = nld tz (start_time b) /\
    nld tz (start_time b) - base ∈ parts;
  df_last : forall a, last day = Some a -> base + DAY <= nld tz (end_time a)
}.

End FurtherVocabulary.

(** * Sample zones and schedules *)

(** UTC. *)
Definition utc : tzinfo := {| utcoffset := fun _ => 0; zone_offsets := [0] |}.

(** [timedelta(hours=n)]. *)
Definition hours (n : Z) : Z := n * 3600000000.

(** The slot of show type [name] from [a] to [b]. *)
Definition slot_between (name : string) (a b : Z) : Timeslot :=
  {| show_type_name := name; start_time := a; duration := b - a |}.

(** A zone with one change of offset: an hour ahead of UTC until
    [summer_ends], on UTC from then on (the end of summer time). *)
Definition summer_ends : Z := hours 7000.
Definition summer_zone : tzinfo :=
  {| utcoffset := fun t => if t <? summer_ends then hours 1 else 0;
     zone_offsets := [hours 1; 0] |}.

(** Two days from local midnight, with a show across the midnight
    between them. *)
Definition evening_show : Timeslot := slot_between "show" 0 (hours 23).
Definition midnight_show : Timeslot := slot_between "show" (hours 23) (hours 25).
Definition morning_filler : Timeslot := slot_between "filler" (hours 25) (hours 48).
Definition sample_week : list Timeslot :=
  [evening_show; midnight_show; morning_filler].
Definition sample_days : list (list Timeslot) :=
  [[evening_show; midnight_show]; [midnight_show; morning_filler]].
Definition sample_offsets : gset Z := {[ 0; hours 23; hours 1 ]}.
Definition sample_table : list (list cell) :=
  [[CTime 0; CSlot evening_show 2; CSlot midnight_show 1];
   [CTime (hours 1); CNone; CSlot morning_filler 2];
   [CTime (hours 23); CSlot midnight_show 1; CNone]].

(** A first slot that ends as the schedule starts. *)
Definition early_filler : Timeslot := slot_between "filler" (hours (-1)) 0.
Definition day_show : Timeslot := slot_between "show" 0 (hours 24).

(** Two shows with an hour between them that no filler covers. *)
Definition first_show : Timeslot := slot_between "show" 0 (hours 2).
Definition late_show : Timeslot := slot_between "show" (hours 3) (hours 24).

(** A slot that starts on the schedule's second day. *)
Definition next_day_show : Timeslot := slot_between "show" (hours 30) (hours 31).

(** The two instants, half an hour either side of the end of summer
    time, that read alike on the wall clock. *)
Definition before_change : Z := summer_ends - hours 1 / 2.
Definition after_change : Z := summer_ends + hours 1 / 2.

(** Row offsets at the start of the day, at 03:00 and at 05:00. *)
Definition morning_offsets : gset Z := {[ 0; hours 3; hours 5 ]}.

(** The sample week as a schedule from local midnight. *)
Definition sample_schedule : Schedule := {| start := 0; data := Slots sample_week |}.

(** * Properties of the day partitioner *)

Section SplitDays.

Variable tz : tzinfo.

Abbreviation nlslot s := (nld tz (start_time s)).
Abbreviation nlend s := (nld tz (end_time s)).

Lemma DAY_pos : 0 < DAY.
Proof. reflexivity. Qed.

(** Linear arithmetic with [DAY] as the number it is. *)
Ltac day_lia := unfold DAY in *; lia.

Lemma rotate_day_Ok de dl dn r :
  rotate_day tz de dl dn = Ok r ->
  exists s, last dl = Some s /\
    r = (if nlend s >? de then [s] else [], dn ++ [dl]).
Proof.
  destruct dl as [|x l]; [discriminate|].
  unfold rotate_day. destruct (last (x :: l)) as [s|] eqn:E; [|discriminate].
  intros [= <-]. exists s. split; reflexivity.
Qed.

Lemma rotate_day_Raise de dl dn e :
  rotate_day tz de dl dn = Raise e <-> dl = [] /\ e = ScheduleInconsistencyError.
Proof.
  destruct dl as [|x l]; unfold rotate_day.
  - split; [intros [= <-]; auto | intros [_ ->]; reflexivity].
  - destruct (last (x :: l)) eqn:E.
    + split; [discriminate | intros [[=] _]].
    + apply last_None in E. discriminate.
Qed.

Lemma rotate_while_eq nlslot st :
  rotate_while tz nlslot st =
  if day_end st <=? nlslot
  then '(dl, dn) ← rotate_day tz (day_end st) (day_list st) (done_day_lists st);
       rotate_while tz nlslot (rotated st dl dn)
  else Ok st.
Proof.
  funelim (rotate_while tz nlslot st);
    repeat match goal with
           | H : Z.leb _ _ = _ |- _ => rewrite H
           | H : rotate_day _ _ _ _ = _ |- _ => rewrite H
           end;
    reflexivity.
Qed.

Lemma days_behind_rotated nlslot st dl dn :
  day_end st <= nlslot ->
  (days_behind nlslot (rotated st dl dn) < days_behind nlslot st)%nat.
Proof.
  intros H. unfold days_behind, rotated; cbn [day_end].
  replace (nlslot - (day_end st + DAY)) with (nlslot - day_end st + (-1) * DAY) by lia.
  rewrite Z.div_add by (unfold DAY; lia).
  assert (0 <= (nlslot - day_end st) / DAY) by (apply Z.div_pos; unfold DAY; lia).
  lia.
Qed.

(** The rule of the [while] loop: what holds before it and is kept by
    each rotation holds after it, together with the negated test. *)
Lemma rotate_while_rule (P : split_state -> Prop) nlslot st st' :
  P st ->
  (forall s dl dn, P s -> day_end s <= nlslot ->
     rotate_day tz (day_end s) (day_list s) (done_day_lists s) = Ok (dl, dn) ->
     P (rotated s dl dn)) ->
  rotate_while tz nlslot st = Ok st' ->
  P st' /\ nlslot < day_end st'.
Proof.
  intros HP Hstep. remember (days_behind nlslot st) as n eqn:En.
  revert st En HP. induction (lt_wf n) as [n _ IH]. intros st -> HP.
  rewrite rotate_while_eq. destruct (Z.leb_spec (day_end st) nlslot) as [Hle|Hgt].
  - destruct (rotate_day tz _ _ _) as [[dl dn]|e] eqn:E; [|discriminate].
    cbn. intros Hrun.
    eapply (IH _ (days_behind_rotated nlslot st dl dn Hle)); eauto.
  - intros [= <-]. auto.
Qed.

Lemma lookup_days_of st j L :
  days_of st !! j = Some L <->
  done_day_lists st !! j = Some L \/
  (j = length (done_day_lists st) /\ L = day_list st).
Proof.
  unfold days_of. rewrite lookup_app_Some, list_lookup_singleton_Some.
  split; intros [H|H]; auto.
  - right. destruct H as (? & ? & ?). split; [lia | congruence].
  - right. destruct H as [-> ->]. split; [lia|]. split; [lia | reflexivity].
Qed.

Lemma split_inv_init nlstart : split_inv tz nlstart (split_init nlstart).
Proof.
  split; cbn.
  - lia.
  - lia.
  - intros L H. inversion H.
  - intros [|j] L s H; [|discriminate]. injection H as <-. intros Hs. inversion Hs.
  - intros [|j] L L' _ H; discriminate.
  - unfold timedelta_days. set_solver.
  - unfold timedelta_days. intros x Hx. assert (x = 0) as -> by set_solver.
    unfold DAY. lia.
Qed.

Lemma split_inv_rotated nlstart st dl dn :
  split_inv tz nlstart st ->
  rotate_day tz (day_end st) (day_list st) (done_day_lists st) = Ok (dl, dn) ->
  split_inv tz nlstart (rotated st dl dn).
Proof.
  intros [H1 H2 H3 H4 H5 H6 H7] Hrot.
  apply rotate_day_Ok in Hrot as (s & Hlast & [= -> ->]).
  assert (Hdays : days_of (rotated st (if nlend s >? day_end st then [s] else [])
                             (done_day_lists st ++ [day_list st]))
                  = days_of st ++ [if nlend s >? day_end st then [s] else []])
    by reflexivity.
  assert (Hlen : length (days_of st) = S (length (done_day_lists st)))
    by (unfold days_of; rewrite length_app; cbn; lia).
  assert (Hcur : days_of st !! length (done_day_lists st) = Some (day_list st))
    by (apply lookup_days_of; auto).
  split; cbn [rotated day_start day_end done_day_lists day_list partitions];
    try rewrite Hdays.
  - rewrite length_app; cbn. day_lia.
  - reflexivity.
  - intros L [HL|HL]%elem_of_app; [auto|].
    apply list_elem_of_singleton in HL as ->. intros E. rewrite E in Hlast. discriminate.
  - intros j L x [HL|[Hj HL]]%lookup_app_Some Hx; [eauto|].
    apply list_lookup_singleton_Some in HL as [Hj' <-].
    assert (x = s) as ->.
    { destruct (nlend s >? day_end st); [|inversion Hx].
      apply list_elem_of_singleton in Hx. exact Hx. }
    assert (Hs : s ∈ day_list st).
    { apply last_Some in Hlast as [l' ->]. apply elem_of_app. right. apply list_elem_of_singleton. reflexivity. }
    specialize (H4 _ _ _ Hcur Hs). day_lia.
  - intros j L L' HL HL'.
    apply lookup_app_Some in HL' as [HL'|[Hj HL']].
    + apply lookup_app_Some in HL as [HL|[Hj _]]; [eauto|].
      apply lookup_lt_Some in HL'. lia.
    + apply list_lookup_singleton_Some in HL' as [Hj' <-].
      assert (j = length (done_day_lists st)) as -> by lia.
      rewrite lookup_app_l in HL by lia. rewrite Hcur in HL. injection HL as <-.
      exists s. split; [exact Hlast|].
      destruct (Z.gtb_spec (nlend s) (day_end st)) as [Hgt|Hle]; cbn.
      * split; [day_lia | reflexivity].
      * split; [discriminate | day_lia].
  - exact H6.
  - exact H7.
Qed.

Lemma last_elem_of (l : list Timeslot) s : last l = Some s -> s ∈ l.
Proof.
  intros [l' ->]%last_Some. apply elem_of_app. right.
  apply list_elem_of_singleton. reflexivity.
Qed.

Lemma split_inv_appended nlstart st x :
  split_inv tz nlstart st ->
  nlslot x < day_end st ->
  (done_day_lists st = [] \/ day_list st <> [] \/ day_start st <= nlslot x) ->
  split_inv tz nlstart (appended tz st x).
Proof.
  intros [H1 H2 H3 H4 H5 H6 H7] Hlt Hhead.
  assert (Hcur : days_of st !! length (done_day_lists st) = Some (day_list st))
    by (apply lookup_days_of; auto).
  assert (Hnew : forall j L, days_of (appended tz st x) !! j = Some L <->
            done_day_lists st !! j = Some L \/
            (j = length (done_day_lists st) /\ L = day_list st ++ [x]))
    by (intros j L; apply lookup_days_of).
  split; cbn [appended day_start day_end done_day_lists day_list partitions].
  - exact H1.
  - exact H2.
  - exact H3.
  - intros j L s [HL|[-> ->]]%Hnew Hs.
    + eapply H4; [apply lookup_days_of; left; exact HL | exact Hs].
    + apply elem_of_app in Hs as [Hs|Hs].
      * eapply H4; [exact Hcur | exact Hs].
      * apply list_elem_of_singleton in Hs as ->. lia.
  - intros j L L' [HL|[-> ->]]%Hnew HL'.
    2:{ apply Hnew in HL' as [HL'|[? _]]; [|lia].
        apply lookup_lt_Some in HL'. lia. }
    apply Hnew in HL' as [HL'|[Hj ->]].
    { eapply H5; apply lookup_days_of; left; eassumption. }
    assert (HLj : days_of st !! j = Some L) by (apply lookup_days_of; auto).
    rewrite <- Hj in Hcur.
    destruct (H5 _ _ _ HLj Hcur) as (s & Hlast & Hiff).
    exists s. split; [exact Hlast|].
    destruct (day_list st) as [|y l] eqn:Ed; [|exact Hiff].
    cbn. cbn in Hiff.
    assert (x <> s).
    { intros ->. pose proof (H4 _ _ _ HLj (last_elem_of _ _ Hlast)).
      destruct Hhead as [E|[E|E]]; [rewrite E in Hj; discriminate | congruence |].
      rewrite H1, <- Hj in E. day_lia. }
    split; [intros [= ?]; contradiction|].
    intros Hb. apply Hiff in Hb. discriminate.
  - destruct (nlslot x >? day_start st); [|exact H6].
    apply elem_of_union. left. exact H6.
  - intros y. destruct (Z.gtb_spec (nlslot x) (day_start st)); [|apply H7].
    intros [Hy|Hy]%elem_of_union; [apply H7, Hy|].
    apply elem_of_singleton in Hy as ->. lia.
Qed.

(** One pass of the [for] loop, from a state between two slots. *)
Lemma split_slot_Ok nlstart st x st' :
  split_inv tz nlstart st ->
  (done_day_lists st = [] \/ day_list st <> []) ->
  split_slot tz st x = Ok st' ->
  exists st1,
    rotate_while tz (nlslot x) st = Ok st1 /\
    st' = appended tz st1 x /\
    split_inv tz nlstart st1 /\ split_inv tz nlstart st' /\
    nlslot x < day_end st1 /\
    partitions st1 = partitions st /\
    days_of st `prefix_of` days_of st1 /\
    (st1 = st \/
     day_start st1 <= nlslot x /\
     (length (done_day_lists st) < length (done_day_lists st1))%nat).
Proof.
  intros Hinv Hne. unfold split_slot.
  destruct (rotate_while tz (nlslot x) st) as [st1|e] eqn:Hrun; [|discriminate].
  cbn. intros [= <-]. exists st1.
  pose proof (rotate_while_rule
    (fun s => split_inv tz nlstart s /\ partitions s = partitions st /\
              days_of st `prefix_of` days_of s /\
              (s = st \/ day_start s <= nlslot x /\
                 (length (done_day_lists st) < length (done_day_lists s))%nat))
    (nlslot x) st st1) as Hrule.
  destruct Hrule as [(Hinv1 & Hparts & Hpre & Hcase) Hlt]; [| |exact Hrun|].
  - split; [exact Hinv|]. split; [reflexivity|]. split; [reflexivity|]. auto.
  - intros s dl dn (Hs & Hp & Hpre & Hcase) Hle Hrot.
    split; [eapply split_inv_rotated; eassumption|].
    split; [exact Hp|].
    pose proof Hrot as Hrot'.
    apply rotate_day_Ok in Hrot' as (y & _ & [= -> ->]).
    split.
    + etransitivity; [exact Hpre|]. eexists. reflexivity.
    + right. cbn. split; [exact Hle|]. rewrite length_app. cbn.
      destruct Hcase as [->|[_ ?]]; lia.
  - split; [reflexivity|]. split; [reflexivity|]. split; [exact Hinv1|].
    split; [|auto].
    apply split_inv_appended; [exact Hinv1 | exact Hlt |].
    destruct Hcase as [->|[? _]]; [|auto].
    destruct Hne; auto.
Qed.

Lemma for_each_app {S A : Type} (body : S -> A -> result S) st xs ys :
  for_each body st (xs ++ ys) = (st' ← for_each body st xs; for_each body st' ys).
Proof.
  revert st. induction xs as [|x xs IH]; intros st; [reflexivity|].
  cbn. destruct (body st x); cbn; [apply IH | reflexivity].
Qed.

Lemma for_each_snoc {S A : Type} (body : S -> A -> result S) st xs x :
  for_each body st (xs ++ [x]) = (st' ← for_each body st xs; body st' x).
Proof.
  rewrite for_each_app. destruct (for_each body st xs) as [st'|]; [|reflexivity].
  cbn. destruct (body st' x); reflexivity.
Qed.

Lemma assigned_day_snoc nlstart pre x :
  assigned_day tz nlstart (pre ++ [x]) = next_day tz nlstart (assigned_day tz nlstart pre) x.
Proof. unfold assigned_day. rewrite foldl_app. reflexivity. Qed.

Lemma assigned_day_nonneg nlstart pre : 0 <= assigned_day tz nlstart pre.
Proof.
  induction pre as [|x pre IH] using rev_ind; [reflexivity|].
  rewrite assigned_day_snoc. unfold next_day. lia.
Qed.

Lemma assigned_day_start_old nlstart pre x i :
  (i < length pre)%nat ->
  assigned_day_start tz nlstart (pre ++ [x]) i = assigned_day_start tz nlstart pre i.
Proof.
  intros Hi. unfold assigned_day_start. rewrite take_app_le by lia. reflexivity.
Qed.

Lemma assigned_day_start_new nlstart pre x :
  assigned_day_start tz nlstart (pre ++ [x]) (length pre) =
  nlstart + assigned_day tz nlstart (pre ++ [x]) * DAY.
Proof.
  unfold assigned_day_start. rewrite take_ge by (rewrite length_app; cbn; lia).
  reflexivity.
Qed.

(** The day count after the rotations for a slot is the slot's day. *)
Lemma next_day_rotations nlstart (k k' : Z) x :
  k <= k' ->
  nlslot x < nlstart + (k' + 1) * DAY ->
  (k' = k \/ nlstart + k' * DAY <= nlslot x) ->
  k' = next_day tz nlstart k x.
Proof.
  intros Hk Hlt Hcase. unfold next_day.
  assert (Hub : (nlslot x - nlstart) / DAY < k' + 1)
    by (apply Z.div_lt_upper_bound; day_lia).
  destruct Hcase as [->|Hge]; [lia|].
  assert (k' <= (nlslot x - nlstart) / DAY)
    by (apply Z.div_le_lower_bound; day_lia).
  lia.
Qed.

Lemma split_run_inv nlstart pre st :
  split_run tz nlstart pre = Ok st ->
  split_inv tz nlstart st /\ prefix_inv tz nlstart pre st.
Proof.
  revert st. induction pre as [|x pre IH] using rev_ind; intros st.
  - intros [= <-]. split; [apply split_inv_init|].
    split; cbn; try reflexivity.
    + intros y. unfold timedelta_days. rewrite elem_of_singleton.
      split; [intros ->; auto | intros [->|(i & s & H & _)]; [reflexivity | discriminate]].
    + intros i s H. discriminate.
  - unfold split_run. rewrite for_each_snoc.
    destruct (for_each (split_slot tz) (split_init nlstart) pre) as [st0|] eqn:Hrun;
      [|discriminate].
    cbn. intros Hslot.
    destruct (IH _ Hrun) as [Hinv0 [P1 P2 P3 P4]].
    assert (Hne : done_day_lists st0 = [] \/ day_list st0 <> []).
    { destruct pre as [|p pre] using rev_ind.
      - left. injection Hrun as <-. reflexivity.
      - right. intros E. rewrite E, last_snoc in P1. discriminate. }
    destruct (split_slot_Ok _ _ _ _ Hinv0 Hne Hslot)
      as (st1 & Hrot & -> & Hinv1 & Hinv' & Hlt & Hparts & Hprefix & Hcase).
    split; [exact Hinv'|].
    assert (Hday : Z.of_nat (length (done_day_lists st1))
                   = assigned_day tz nlstart (pre ++ [x])).
    { rewrite assigned_day_snoc, <- P2. apply next_day_rotations.
      - destruct Hcase as [->|[_ ?]]; lia.
      - rewrite (inv_end _ _ _ Hinv1), (inv_start _ _ _ Hinv1) in Hlt. day_lia.
      - destruct Hcase as [->|[? _]]; [auto|].
        right. rewrite (inv_start _ _ _ Hinv1) in *. lia. }
    assert (Hstart : day_start st1 = assigned_day_start tz nlstart (pre ++ [x]) (length pre)).
    { rewrite assigned_day_start_new, <- Hday. apply (inv_start _ _ _ Hinv1). }
    split; cbn [appended day_start day_end done_day_lists day_list partitions].
    + rewrite !last_snoc. reflexivity.
    + exact Hday.
    + intros y.
      assert (Hold : y ∈ partitions st1 <->
                y = 0 \/ exists i s, (pre ++ [x]) !! i = Some s /\ (i < length pre)%nat /\
                  assigned_day_start tz nlstart (pre ++ [x]) i < nlslot s /\
                  y = nlslot s - assigned_day_start tz nlstart (pre ++ [x]) i).
      { rewrite Hparts, P3. apply or_iff_compat_l.
        split; intros (i & s & Hi & Hb & Hy).
        - pose proof (lookup_lt_Some _ _ _ Hi).
          exists i, s. rewrite lookup_app_l, assigned_day_start_old by lia. auto.
        - destruct Hy as [Hlt' Hy].
          rewrite lookup_app_l in Hi by lia.
          rewrite assigned_day_start_old in Hlt', Hy by lia. eauto. }
      destruct (Z.gtb_spec (nlslot x) (day_start st1)) as [Hgt|Hle].
      * rewrite elem_of_union, elem_of_singleton, Hold. split.
        -- intros [[->|(i & s & Hi & _ & Hb & Hy)]| ->]; [auto | right; eauto |].
           right. exists (length pre), x. rewrite <- Hstart.
           rewrite lookup_app_r, Nat.sub_diag by lia. auto.
        -- intros [->|(i & s & Hi & Hb & Hy)]; [auto|].
           pose proof (lookup_lt_Some _ _ _ Hi) as Hlen.
           rewrite length_app in Hlen; cbn in Hlen.
           destruct (decide (i = length pre)) as [->|Hne'].
           ++ right. rewrite lookup_app_r, Nat.sub_diag in Hi by lia.
              injection Hi as <-. rewrite Hstart. exact Hy.
           ++ left. right. exists i, s. repeat split; auto. lia.
      * rewrite Hold. apply or_iff_compat_l.
        split; intros (i & s & Hi & Hb); [destruct Hb; eauto|].
        pose proof (lookup_lt_Some _ _ _ Hi) as Hlen.
        rewrite length_app in Hlen; cbn in Hlen.
        destruct (decide (i = length pre)) as [->|Hne'].
        -- rewrite lookup_app_r, Nat.sub_diag in Hi by lia.
           injection Hi as <-. rewrite <- Hstart in Hb. lia.
        -- exists i, s. repeat split; try tauto. lia.
    + intros i s Hi.
      pose proof (lookup_lt_Some _ _ _ Hi) as Hlen.
      rewrite length_app in Hlen; cbn in Hlen.
      destruct (decide (i = length pre)) as [->|Hne'].
      * rewrite lookup_app_r, Nat.sub_diag in Hi by lia. injection Hi as <-.
        rewrite take_ge by (rewrite length_app; cbn; lia).
        rewrite <- Hday, Nat2Z.id.
        exists (day_list st1 ++ [x]). split.
        -- apply lookup_days_of. right. auto.
        -- apply elem_of_app. right. apply list_elem_of_singleton. reflexivity.
      * rewrite lookup_app_l in Hi by lia. rewrite take_app_le by lia.
        destruct (P4 _ _ Hi) as (L & HL & Hs).
        destruct Hprefix as [ext Hext].
        assert (HL1 : days_of st1 !! Z.to_nat (assigned_day tz nlstart (take (S i) pre))
                      = Some L)
          by (rewrite Hext; apply lookup_app_l_Some; exact HL).
        apply lookup_days_of in HL1 as [HL1|[Hj ->]].
        -- exists L. split; [|exact Hs]. apply lookup_days_of. left. exact HL1.
        -- exists (day_list st1 ++ [x]). split.
           ++ apply lookup_days_of. right. auto.
           ++ apply elem_of_app. left. exact Hs.
Qed.

Lemma split_days_Ok nlstart data lists parts :
  split_days tz nlstart data = Ok (lists, parts) <->
  exists st, split_run tz nlstart data = Ok st /\
             lists = days_of st /\ parts = partitions st.
Proof.
  unfold split_days, split_run.
  destruct (for_each (split_slot tz) (split_init nlstart) data) as [st|e]; cbn.
  - split.
    + intros [= <- <-]. eauto.
    + intros (st' & [= <-] & -> & ->). reflexivity.
  - split; [discriminate | intros (st' & [=] & _)].
Qed.

Lemma split_days_Raise nlstart data e :
  split_days tz nlstart data = Raise e <-> split_run tz nlstart data = Raise e.
Proof.
  unfold split_days, split_run.
  destruct (for_each (split_slot tz) (split_init nlstart) data) as [st|e']; cbn.
  - split; discriminate.
  - split; intros [= ->]; reflexivity.
Qed.

(** ** Carry-over at a day rotation *)


(** ** Empty days *)

Lemma rotate_while_Raise nlstart nlslot st K e :
  day_end st = nlstart + (K + 1) * DAY ->
  rotate_while tz nlslot st = Raise e <->
  e = ScheduleInconsistencyError /\
  exists d, K <= d /\ nlstart + (d + 1) * DAY <= nlslot /\
    match last (day_list st) with
    | None => True
    | Some p => K < d /\ nlend p <= nlstart + d * DAY
    end.
Proof.
  remember (days_behind nlslot st) as n eqn:En.
  revert st K En. induction (lt_wf n) as [n _ IH]. intros st K -> Hend.
  rewrite rotate_while_eq. destruct (Z.leb_spec (day_end st) nlslot) as [Hle|Hgt].
  - destruct (rotate_day tz _ _ _) as [[dl dn]|e'] eqn:E.
    + pose proof E as E'.
      apply rotate_day_Ok in E' as (p & Hlast & [= -> ->]). cbn.
      rewrite (IH _ (days_behind_rotated nlslot st _ _ Hle) _ (K + 1) eq_refl)
        by (cbn; lia).
      cbn [rotated day_list]. rewrite Hlast. apply and_iff_compat_l.
      destruct (Z.gtb_spec (nlend p) (day_end st)) as [Hs|Hs]; cbn.
      * split; intros (d & H1 & H2 & H3 & H4); exists d; repeat split; try lia.
        destruct (decide (d = K + 1)) as [->|]; lia.
      * split.
        -- intros (d & H1 & H2 & _). exists (K + 1). day_lia.
        -- intros (d & H1 & H2 & H3 & H4). exists d. repeat split; lia.
    + apply rotate_day_Raise in E as [Hnil ->]. cbn. rewrite Hnil. cbn.
      split.
      * intros [= <-]. split; [reflexivity|]. exists K. repeat split; lia.
      * intros [-> _]. reflexivity.
  - split; [discriminate|].
    intros (_ & d & H1 & H2 & _). day_lia.
Qed.

Lemma split_slot_Raise st x e :
  split_slot tz st x = Raise e <-> rotate_while tz (nlslot x) st = Raise e.
Proof.
  unfold split_slot. destruct (rotate_while tz (nlslot x) st); cbn.
  - split; discriminate.
  - split; intros [= ->]; reflexivity.
Qed.

Lemma closes_empty_day_snoc nlstart pre x :
  closes_empty_day tz nlstart (pre ++ [x]) <->
  closes_empty_day tz nlstart pre \/
  exists d, assigned_day tz nlstart pre <= d /\
    nlstart + (d + 1) * DAY <= nlslot x /\
    match last pre with
    | None => True
    | Some p => assigned_day tz nlstart pre < d /\ nlend p <= nlstart + d * DAY
    end.
Proof.
  unfold closes_empty_day. split.
  - intros (i & y & d & Hi & H).
    pose proof (lookup_lt_Some _ _ _ Hi) as Hlen.
    rewrite length_app in Hlen; cbn in Hlen.
    destruct (decide (i = length pre)) as [->|Hne].
    + right. rewrite lookup_app_r, Nat.sub_diag in Hi by lia. injection Hi as <-.
      rewrite take_app_le, take_ge in H by lia. eauto.
    + left. rewrite lookup_app_l in Hi by lia.
      rewrite take_app_le in H by lia. eauto.
  - intros [(i & y & d & Hi & H)|(d & H)].
    + pose proof (lookup_lt_Some _ _ _ Hi) as Hlen.
      exists i, y, d. rewrite lookup_app_l, take_app_le by lia. auto.
    + exists (length pre), x, d.
      rewrite lookup_app_r, Nat.sub_diag, take_app_le, take_ge by lia. auto.
Qed.

Lemma split_run_Raise nlstart data e :
  split_run tz nlstart data = Raise e <->
  e = ScheduleInconsistencyError /\ closes_empty_day tz nlstart data.
Proof.
  revert e. induction data as [|x pre IH] using rev_ind; intros e.
  - split; [discriminate|]. intros (_ & i & y & d & H & _). discriminate.
  - rewrite closes_empty_day_snoc. unfold split_run. rewrite for_each_snoc.
    destruct (for_each (split_slot tz) (split_init nlstart) pre) as [st|e0] eqn:Hrun.
    + cbn. rewrite split_slot_Raise.
      destruct (split_run_inv _ _ _ Hrun) as [Hinv [P1 P2 _ _]].
      rewrite (rotate_while_Raise nlstart _ st (assigned_day tz nlstart pre))
        by (rewrite (inv_end _ _ _ Hinv), (inv_start _ _ _ Hinv), P2; lia).
      rewrite P1. apply and_iff_compat_l.
      split; [auto|]. intros [Hc|H]; [|exact H].
      assert (split_run tz nlstart pre = Raise ScheduleInconsistencyError) as Habs
        by (apply IH; auto).
      unfold split_run in Habs. rewrite Hrun in Habs. discriminate.
    + cbn. destruct (proj1 (IH e0) Hrun) as [-> Hc]. split.
      * intros [= <-]. auto.
      * intros [-> _]. reflexivity.
Qed.

(** C2.  [rotate_day] raises exactly when the day it is to close has no
    slot; [split_days] raises exactly when placing some slot closes an
    empty day, and what it raises is [ScheduleInconsistencyError]; when it
    returns, every day list but the last (the closed ones) has a slot. *)
Theorem split_days_empty_day (nlstart : Z) (data : list Timeslot) :
  (forall day_end day_list done_day_lists e,
     rotate_day tz day_end day_list done_day_lists = Raise e <->
     day_list = [] /\ e = ScheduleInconsistencyError) /\
  (forall e, split_days tz nlstart data = Raise e <->
     e = ScheduleInconsistencyError /\ closes_empty_day tz nlstart data) /\
  (forall lists parts,
     split_days tz nlstart data = Ok (lists, parts) ->
     forall k closed, (S k < length lists)%nat -> lists !! k = Some closed ->
       (1 <= length closed)%nat).
Proof.
  split; [intros; apply rotate_day_Raise|].
  split; [intros e; rewrite split_days_Raise; apply split_run_Raise|].
  intros lists parts (st & Hrun & -> & ->)%split_days_Ok k closed Hk Hc.
  apply split_run_inv in Hrun as [Hinv _].
  unfold days_of in Hk, Hc. rewrite length_app in Hk; cbn in Hk.
  rewrite lookup_app_l in Hc by lia.
  assert (closed <> []) by (eapply (inv_closed _ _ _ Hinv), list_elem_of_lookup_2, Hc).
  destruct closed; [contradiction | cbn; lia].
Qed.

(** ** Row offsets *)

(** C5.  The row-offset set [split_days] returns contains the zero
    offset; every slot of the input is in the list of the day it is
    assigned to, and when its naive-local start is strictly after that
    day's local start, the distance between the two is in the set; the
    set has no other element. *)
Theorem split_days_row_offsets (nlstart : Z) (data : list Timeslot)
    (lists : list (list Timeslot)) (parts : gset Z) :
  split_days tz nlstart data = Ok (lists, parts) ->
  0 ∈ parts /\
  (forall i x, data !! i = Some x ->
     (exists day,
        lists !! Z.to_nat (assigned_day tz nlstart (take (S i) data)) = Some day /\
        x ∈ day) /\
     (assigned_day_start tz nlstart data i < nlslot x ->
      nlslot x - assigned_day_start tz nlstart data i ∈ parts)) /\
  (forall y, y ∈ parts ->
     y = 0 \/
     exists i x, data !! i = Some x /\
       assigned_day_start tz nlstart data i < nlslot x /\
       y = nlslot x - assigned_day_start tz nlstart data i).
Proof.
  intros (st & Hrun & -> & ->)%split_days_Ok.
  apply split_run_inv in Hrun as [Hinv [_ _ P3 P4]].
  split; [apply (inv_zero _ _ _ Hinv)|]. split.
  - intros i x Hi. split; [apply P4, Hi|].
    intros Hlt. apply P3. right. eauto.
  - intros y Hy. apply P3, Hy.
Qed.

(** C9.  Every element of the row-offset set [split_days] returns is in
    [[0, DAY)]: zero is in the set, every other element is strictly
    positive and strictly less than one day, and each slot's naive-local
    start is before the end of the day it is assigned to. *)
Theorem split_days_offsets_within_day (nlstart : Z) (data : list Timeslot)
    (lists : list (list Timeslot)) (parts : gset Z) :
  split_days tz nlstart data = Ok (lists, parts) ->
  0 ∈ parts /\
  (forall y, y ∈ parts -> 0 <= y < DAY) /\
  (forall y, y ∈ parts -> y <> 0 -> 0 < y < DAY) /\
  (forall i x, data !! i = Some x ->
     nlslot x < assigned_day_start tz nlstart data i + DAY).
Proof.
  intros (st & Hrun & -> & ->)%split_days_Ok.
  apply split_run_inv in Hrun as [Hinv [_ _ _ P4]].
  split; [apply (inv_zero _ _ _ Hinv)|].
  split; [apply (inv_offsets _ _ _ Hinv)|].
  split.
  - intros y Hy Hne. pose proof (inv_offsets _ _ _ Hinv y Hy). lia.
  - intros i x Hi. destruct (P4 _ _ Hi) as (L & HL & Hx).
    pose proof (inv_before _ _ _ Hinv _ _ _ HL Hx) as Hb.
    rewrite Z2Nat.id in Hb by apply assigned_day_nonneg.
    unfold assigned_day_start. day_lia.
Qed.

(** C10.  On the empty slot list [split_days] returns, without raising,
    one day list, which is empty, and the row-offset set whose only
    element is the zero offset. *)
Theorem split_days_empty_input (nlstart : Z) :
  split_days tz nlstart [] = Ok ([[]], {[ 0 ]}).
Proof. reflexivity. Qed.

End SplitDays.

(** * Properties of the table builder *)

Section PopulateTable.

Variable tz : tzinfo.

Abbreviation nlend s := (nld tz (end_time s)).

Lemma row_date_cell table days row :
  row_date table days row =
  match cell_at table row SCHEDULE_TIME_COL with
  | None => Raise IndexError
  | Some (CTime t) => Ok (t + timedelta_days (Z.of_nat days))
  | Some _ => Raise TypeError
  end.
Proof.
  unfold row_date, cell_at. destruct (table !! row) as [r|]; reflexivity.
Qed.

Lemma row_date_in_table table days row t :
  row_date table days row = Ok t -> (row < length table)%nat.
Proof.
  unfold row_date. destruct (table !! row) eqn:E; [|discriminate].
  intros _. eapply lookup_lt_Some, E.
Qed.

Lemma advance_row_eq table days nlend current_row :
  advance_row table days nlend current_row =
  match row_date table days current_row with
  | Raise e => (current_row, Raise e)
  | Ok t =>
      if t <? nlend
      then advance_row table days nlend (S current_row)
      else (current_row, Ok ())
  end.
Proof.
  funelim (advance_row table days nlend current_row);
    repeat match goal with
           | H : row_date _ _ _ = _ |- _ => rewrite H
           | H : Z.ltb _ _ = _ |- _ => rewrite H
           end;
    reflexivity.
Qed.

(** The cursor only moves down, and no further than one past the last
    row. *)
Lemma advance_row_bounds table days nlend cur :
  (cur <= (advance_row table days nlend cur).1)%nat /\
  ((cur <= length table)%nat ->
   ((advance_row table days nlend cur).1 <= length table)%nat).
Proof.
  remember (length table - cur)%nat as n eqn:En.
  revert cur En. induction (lt_wf n) as [n _ IH]. intros cur ->.
  rewrite advance_row_eq.
  destruct (row_date table days cur) as [t|e] eqn:E; [|cbn; lia].
  apply row_date_in_table in E.
  destruct (t <? nlend); [|cbn; lia].
  destruct (IH (length table - S cur)%nat ltac:(lia) (S cur) eq_refl). lia.
Qed.

(** Where the loop leaves the cursor: every row passed begins before
    [nlend]; the row it stops on does not, or cannot be read. *)
Lemma advance_row_spec table days nlend cur stop exit :
  advance_row table days nlend cur = (stop, exit) ->
  (cur <= stop)%nat /\
  (forall r, (cur <= r < stop)%nat ->
     exists t, row_date table days r = Ok t /\ t < nlend) /\
  match exit with
  | Ok _ => exists t, row_date table days stop = Ok t /\ nlend <= t
  | Raise e => row_date table days stop = Raise e
  end.
Proof.
  remember (length table - cur)%nat as n eqn:En.
  revert cur En. induction (lt_wf n) as [n _ IH]. intros cur ->.
  rewrite advance_row_eq.
  destruct (row_date table days cur) as [t|e] eqn:E.
  - pose proof (row_date_in_table _ _ _ _ E) as Hin.
    destruct (Z.ltb_spec t nlend) as [Hlt|Hge].
    + intros Hrun.
      destruct (IH (length table - S cur)%nat ltac:(lia) (S cur) eq_refl Hrun)
        as (H1 & H2 & H3).
      split; [lia|]. split; [|exact H3].
      intros r Hr. destruct (decide (r = cur)) as [->|Hne]; [eauto|].
      apply H2. lia.
    + intros [= <- <-]. split; [lia|]. split; [intros r Hr; lia|]. eauto.
  - intros [= <- <-]. split; [lia|]. split; [intros r Hr; lia | exact E].
Qed.

(** The loop reads the time column only. *)
Lemma advance_row_times table table' days nlend cur :
  (forall r, cell_at table' r SCHEDULE_TIME_COL = cell_at table r SCHEDULE_TIME_COL) ->
  advance_row table' days nlend cur = advance_row table days nlend cur.
Proof.
  intros Hsame.
  assert (Hdate : forall r, row_date table' days r = row_date table days r)
    by (intros r; rewrite !row_date_cell, Hsame; reflexivity).
  remember (length table - cur)%nat as n eqn:En.
  revert cur En. induction (lt_wf n) as [n _ IH]. intros cur ->.
  rewrite (advance_row_eq table), (advance_row_eq table'), Hdate.
  destruct (row_date table days cur) as [t|e] eqn:E; [|reflexivity].
  apply row_date_in_table in E.
  destruct (t <? nlend); [|reflexivity].
  apply (IH (length table - S cur)%nat ltac:(lia) (S cur) eq_refl).
Qed.

Lemma add_to_table_Ok table days row slot rows table' :
  add_to_table table days row slot rows = Ok table' ->
  (row < length table)%nat /\
  length table' = length table /\
  forall r c,
    cell_at table' r c =
    if decide (r = row /\ c = (SCHEDULE_DAY_OFFSET + days)%nat)
    then Some (CSlot slot rows)
    else cell_at table r c.
Proof.
  unfold add_to_table. destruct (table !! row) as [r0|] eqn:E; [|discriminate].
  case_bool_decide as Hcol; [|discriminate]. intros [= <-].
  pose proof (lookup_lt_Some _ _ _ E) as Hrow.
  split; [exact Hrow|]. split; [apply length_insert|].
  intros r c. unfold cell_at.
  destruct (decide (r = row)) as [->|Hr].
  - rewrite list_lookup_insert_eq by exact Hrow. rewrite E. cbn.
    destruct (decide (c = (SCHEDULE_DAY_OFFSET + days)%nat)) as [->|Hc].
    + rewrite decide_True by auto. apply list_lookup_insert_eq, Hcol.
    + rewrite decide_False by tauto. apply list_lookup_insert_ne. auto.
  - rewrite decide_False by tauto. rewrite list_lookup_insert_ne by auto.
    reflexivity.
Qed.

Lemma place_slot_Ok days table cur slot table' cur' :
  place_slot tz days (table, cur) slot = Ok (table', cur') ->
  cur' = stop_row tz table days cur slot /\
  add_to_table table days cur slot (Z.of_nat cur' - Z.of_nat cur) = Ok table'.
Proof.
  unfold place_slot, stop_row.
  destruct (advance_row table days (nlend slot) cur) as [stop exit].
  match goal with
  | |- (_ ← ?chk; _) = _ -> _ => destruct chk as [[]|e]; [|discriminate]
  end.
  cbn. destruct (add_to_table table days cur slot _) as [t|e] eqn:E; [|discriminate].
  cbn. intros [= <- <-]. auto.
Qed.

Lemma place_slot_spec days table cur slot table' cur' :
  col_inv table (SCHEDULE_DAY_OFFSET + days) cur ->
  place_slot tz days (table, cur) slot = Ok (table', cur') ->
  col_inv table' (SCHEDULE_DAY_OFFSET + days) cur' /\
  length table' = length table /\
  (forall r c, c <> (SCHEDULE_DAY_OFFSET + days)%nat ->
     cell_at table' r c = cell_at table r c) /\
  (forall r, r <> cur ->
     cell_at table' r (SCHEDULE_DAY_OFFSET + days) =
     cell_at table r (SCHEDULE_DAY_OFFSET + days)) /\
  cur' = stop_row tz table days cur slot /\
  (cur <= cur')%nat /\
  cell_at table' cur (SCHEDULE_DAY_OFFSET + days)
  = Some (CSlot slot (Z.of_nat cur' - Z.of_nat cur)).
Proof.
  intros [I1 I2 I3 I4] (Hstop & Hadd)%place_slot_Ok.
  apply add_to_table_Ok in Hadd as (Hrow & Hlen & Hcell).
  pose proof (advance_row_bounds table days (nlend slot) cur) as [Hge Hle].
  fold (stop_row tz table days cur slot) in Hge, Hle. rewrite <- Hstop in Hge, Hle.
  specialize (Hle I1).
  assert (Hother : forall r, r <> cur ->
            cell_at table' r (SCHEDULE_DAY_OFFSET + days) =
            cell_at table r (SCHEDULE_DAY_OFFSET + days))
    by (intros r Hr; rewrite Hcell, decide_False by tauto; reflexivity).
  assert (Hhere : cell_at table' cur (SCHEDULE_DAY_OFFSET + days)
                  = Some (CSlot slot (Z.of_nat cur' - Z.of_nat cur)))
    by (rewrite Hcell, decide_True by auto; reflexivity).
  split; [|repeat split; auto].
  2:{ intros r c Hc. rewrite Hcell, decide_False by tauto. reflexivity. }
  split.
  - lia.
  - intros r Hr. rewrite Hlen in Hr. rewrite Hother by lia. apply I2. lia.
  - intros Hin. rewrite Hlen in Hin. destruct (decide (cur' = cur)) as [->|Hne].
    + right. exists slot. rewrite Hhere. do 2 f_equal. lia.
    + left. rewrite Hother by exact Hne. apply I2. lia.
  - intros r s k. destruct (decide (r = cur)) as [->|Hr].
    + rewrite Hhere. intros [= <- <-]. split; [lia|]. split; [lia|].
      intros r' H1 H2. rewrite Hother by lia. apply I2. lia.
    + rewrite Hother by exact Hr. intros Hk.
      destruct (I4 _ _ _ Hk) as (K1 & K2 & K3). split; [lia|]. split; [lia|].
      intros r' H1 H2. rewrite Hother by lia. apply K3; lia.
Qed.

(** A day's slots, placed from any state of the cursor. *)
Lemma place_slots_spec (E : list (list cell)) days day :
  forall table cur table' cur',
  (forall r, cell_at table r SCHEDULE_TIME_COL = cell_at E r SCHEDULE_TIME_COL) ->
  col_inv table (SCHEDULE_DAY_OFFSET + days) cur ->
  for_each (place_slot tz days) (table, cur) day = Ok (table', cur') ->
  col_inv table' (SCHEDULE_DAY_OFFSET + days) cur' /\
  length table' = length table /\
  (forall r c, c <> (SCHEDULE_DAY_OFFSET + days)%nat ->
     cell_at table' r c = cell_at table r c) /\
  (forall r, (r < cur)%nat ->
     cell_at table' r (SCHEDULE_DAY_OFFSET + days) =
     cell_at table r (SCHEDULE_DAY_OFFSET + days)) /\
  (forall j slot, day !! j = Some slot ->
     let start := foldl (stop_row tz E days) cur (take j day) in
     let stop := foldl (stop_row tz E days) cur (take (S j) day) in
     (start <= stop)%nat /\
     ((start < stop)%nat ->
      cell_at table' start (SCHEDULE_DAY_OFFSET + days)
      = Some (CSlot slot (Z.of_nat stop - Z.of_nat start)))).
Proof.
  induction day as [|x day IH]; intros table cur table' cur' Htimes Hinv.
  - intros [= <- <-]. do 4 (split; [auto|]). intros j s H. discriminate.
  - cbn [for_each].
    destruct (place_slot tz days (table, cur) x) as [[t1 c1]|e] eqn:Hx; [|discriminate].
    cbn. intros Hrest.
    destruct (place_slot_spec _ _ _ _ _ _ Hinv Hx)
      as (Hinv1 & Hlen1 & Hcols1 & Hrows1 & Hstop & Hle & Hhere).
    assert (Htimes1 : forall r, cell_at t1 r SCHEDULE_TIME_COL
                                = cell_at E r SCHEDULE_TIME_COL).
    { intros r. rewrite Hcols1 by (unfold SCHEDULE_TIME_COL, SCHEDULE_DAY_OFFSET; lia).
      apply Htimes. }
    assert (Hc1 : c1 = stop_row tz E days cur x).
    { rewrite Hstop. unfold stop_row. f_equal. apply advance_row_times.
      intros r. symmetry. rewrite Htimes. reflexivity. }
    destruct (IH _ _ _ _ Htimes1 Hinv1 Hrest) as (Hinv' & Hlen' & Hcols' & Hrows' & Hfound).
    split; [exact Hinv'|]. split; [congruence|].
    split; [intros r c Hc; rewrite Hcols', Hcols1 by exact Hc; reflexivity|].
    split; [intros r Hr; rewrite Hrows', Hrows1 by lia; reflexivity|].
    intros [|j] slot Hj; cbn [take foldl]; rewrite <- Hc1.
    + injection Hj as <-. cbn. split; [exact Hle|].
      intros Hlt. rewrite Hrows' by exact Hlt. exact Hhere.
    + apply (Hfound j slot Hj).
Qed.

Lemma cell_at_empty_table nlstart parts n r c :
  cell_at (empty_table nlstart parts n) r c =
  match sorted parts !! r with
  | None => None
  | Some i =>
      match c with
      | O => Some (CTime (nlstart + i))
      | S c' => if decide (c' < n)%nat then Some CNone else None
      end
  end.
Proof.
  unfold cell_at, empty_table. rewrite list_lookup_fmap.
  destruct (sorted parts !! r) as [i|]; [|reflexivity].
  cbn. destruct c as [|c']; [reflexivity|]. cbn.
  case_decide as Hc.
  - apply lookup_replicate_2, Hc.
  - apply lookup_replicate_None. lia.
Qed.

Lemma length_empty_table nlstart parts n :
  length (empty_table nlstart parts n) = length (sorted parts).
Proof. unfold empty_table. apply length_fmap. Qed.

Lemma empty_table_blank nlstart parts n r c v :
  cell_at (empty_table nlstart parts n) r c = Some v ->
  c <> O ->
  v = CNone /\
  forall r', (r' < length (empty_table nlstart parts n))%nat ->
    cell_at (empty_table nlstart parts n) r' c = Some CNone.
Proof.
  rewrite cell_at_empty_table.
  destruct (sorted parts !! r) as [i|]; [|discriminate].
  destruct c as [|c']; [contradiction|].
  case_decide as Hc; [|discriminate].
  intros [= <-] _. split; [reflexivity|].
  intros r' Hr'. rewrite length_empty_table in Hr'.
  rewrite cell_at_empty_table.
  destruct (lookup_lt_is_Some_2 _ _ Hr') as [i' ->].
  rewrite decide_True by exact Hc. reflexivity.
Qed.

Lemma empty_table_no_slot nlstart parts n r c s k :
  cell_at (empty_table nlstart parts n) r c <> Some (CSlot s k).
Proof.
  rewrite cell_at_empty_table.
  destruct (sorted parts !! r) as [i|]; [|discriminate].
  destruct c as [|c']; [discriminate|].
  case_decide; discriminate.
Qed.

Lemma enumerate_snoc {A : Type} (l : list A) (x : A) :
  enumerate (l ++ [x]) = enumerate l ++ [(length l, x)].
Proof.
  unfold enumerate. rewrite imap_app. cbn. rewrite Nat.add_0_r. reflexivity.
Qed.

Lemma populate_table_day_Ok table days day table' :
  populate_table_day tz table days day = Ok table' <->
  exists cur', for_each (place_slot tz days) (table, 0%nat) day = Ok (table', cur').
Proof.
  unfold populate_table_day.
  destruct (for_each (place_slot tz days) (table, 0%nat) day) as [[t c]|e]; cbn.
  - split; [intros [= <-]; eauto | intros (c' & [= <- _]); reflexivity].
  - split; [discriminate | intros (c' & [=])].
Qed.

(** The first slot of a day is written at row 0 of the day's column,
    which therefore exists. *)
Lemma place_slots_column days table day table' cur' :
  for_each (place_slot tz days) (table, 0%nat) day = Ok (table', cur') ->
  day = [] \/ is_Some (cell_at table 0 (SCHEDULE_DAY_OFFSET + days)).
Proof.
  intros Hrun. destruct day as [|x day]; [auto|]. right.
  cbn [for_each] in Hrun.
  destruct (place_slot tz days (table, 0%nat) x) as [[t1 c1]|e] eqn:Hx; [|discriminate].
  clear Hrun. apply place_slot_Ok in Hx as [_ Hadd]. revert Hadd.
  unfold add_to_table, cell_at. destruct (table !! 0%nat) as [r0|]; [|discriminate].
  case_bool_decide as Hc; [|discriminate]. intros _.
  cbn. apply lookup_lt_is_Some_2, Hc.
Qed.

Lemma populate_table_spec nlstart parts n lists :
  forall table',
  populate_table tz (empty_table nlstart parts n) lists = Ok table' ->
  length table' = length (empty_table nlstart parts n) /\
  (forall r, cell_at table' r SCHEDULE_TIME_COL
             = cell_at (empty_table nlstart parts n) r SCHEDULE_TIME_COL) /\
  (forall r c, (length lists < c)%nat ->
     cell_at table' r c = cell_at (empty_table nlstart parts n) r c) /\
  (forall c, well_spanned table' c) /\
  (forall d day, lists !! d = Some day ->
     day_in_table tz (empty_table nlstart parts n) table' d day).
Proof.
  set (E := empty_table nlstart parts n).
  induction lists as [|day lists IH] using rev_ind; intros table'.
  - intros [= <-]. do 3 (split; [auto|]). split.
    + intros c r s k H. exfalso. exact (empty_table_no_slot _ _ _ _ _ _ _ H).
    + intros d day H. discriminate.
  - unfold populate_table. rewrite enumerate_snoc, for_each_snoc.
    fold (populate_table tz E lists).
    destruct (populate_table tz E lists) as [T|e]; [|discriminate].
    destruct (IH T eq_refl) as (Hlen & Htimes & Hlater & Hspans & Hfound).
    cbn. intros (cur' & Hday)%populate_table_day_Ok.
    set (c0 := (SCHEDULE_DAY_OFFSET + length lists)%nat) in *.
    assert (Hc0 : (length lists < c0)%nat) by (unfold c0, SCHEDULE_DAY_OFFSET; lia).
    assert (Hold : forall d day0, lists !! d = Some day0 ->
              (SCHEDULE_DAY_OFFSET + d)%nat <> c0).
    { intros d day0 Hd%lookup_lt_Some. unfold c0. lia. }
    destruct (place_slots_column _ _ _ _ _ Hday) as [->|[v Hv]].
    { injection Hday as <- <-.
      split; [exact Hlen|]. split; [exact Htimes|].
      split; [intros r c Hc; apply Hlater; rewrite length_app in Hc; cbn in Hc; lia|].
      split; [exact Hspans|].
      intros d day [Hd|[_ Hd]]%lookup_app_Some; [apply Hfound, Hd|].
      apply list_lookup_singleton_Some in Hd as [_ <-].
      intros j s H. discriminate. }
    rewrite Hlater in Hv by exact Hc0.
    destruct (empty_table_blank _ _ _ _ _ _ Hv) as [_ Hblank];
      [unfold c0, SCHEDULE_DAY_OFFSET; lia|].
    fold E in Hblank.
    assert (Hinv0 : col_inv T c0 0).
    { split.
      - lia.
      - intros r Hr. rewrite Hlater by exact Hc0. apply Hblank. lia.
      - intros Hr. left. rewrite Hlater by exact Hc0. apply Hblank. lia.
      - intros r s k Hk. rewrite Hlater in Hk by exact Hc0.
        exfalso. exact (empty_table_no_slot _ _ _ _ _ _ _ Hk). }
    destruct (place_slots_spec E _ _ _ _ _ _ Htimes Hinv0 Hday)
      as (Hinv' & Hlen' & Hcols' & _ & Hfound').
    split; [congruence|].
    split; [intros r; rewrite Hcols' by (unfold SCHEDULE_TIME_COL, SCHEDULE_DAY_OFFSET; lia);
            apply Htimes|].
    split.
    { intros r c Hc. rewrite length_app in Hc; cbn in Hc.
      rewrite Hcols' by (unfold SCHEDULE_DAY_OFFSET; lia). apply Hlater. lia. }
    split.
    { intros c. destruct (decide (c = c0)) as [->|Hc].
      - intros r s k Hk. destruct (ci_spans _ _ _ Hinv' _ _ _ Hk) as (K1 & K2 & K3).
        pose proof (ci_cur _ _ _ Hinv'). split; [exact K1|]. split; [lia | exact K3].
      - intros r s k. rewrite Hcols' by exact Hc. intros Hk.
        destruct (Hspans _ _ _ _ Hk) as (K1 & K2 & K3).
        split; [exact K1|]. split; [lia|].
        intros r' H1 H2. rewrite Hcols' by exact Hc. apply K3; assumption. }
    intros d day0 [Hd|[Hge Hd]]%lookup_app_Some.
    + intros j s Hj. destruct (Hfound _ _ Hd j s Hj) as [H1 H2].
      split; [exact H1|]. intros Hlt.
      rewrite Hcols' by (eapply Hold, Hd). apply H2, Hlt.
    + apply list_lookup_singleton_Some in Hd as [Hd <-].
      assert (d = length lists) as -> by lia.
      intros j s Hj. apply (Hfound' j s Hj).
Qed.

(** ** Row spans *)


(** ** The consistency check *)

(** When the loop is left by running past the last row, nothing is
    checked and the slot is written from its start row. *)
Lemma place_slot_hit_bottom days table cur s stop :
  advance_row table days (nlend s) cur = (stop, Raise IndexError) ->
  place_slot tz days (table, cur) s =
  (table' ← add_to_table table days cur s (Z.of_nat stop - Z.of_nat cur);
   Ok (table', stop)).
Proof. unfold place_slot. intros ->. reflexivity. Qed.

(** When the loop stops at a row that begins after the slot's end, the
    error message is built first, and it reads the row after. *)
Lemma place_slot_misaligned days table cur s stop t :
  advance_row table days (nlend s) cur = (stop, Ok ()) ->
  row_date table days stop = Ok t ->
  nlend s < t ->
  place_slot tz days (table, cur) s =
  match row_date table days (S stop) with
  | Ok _ => Raise ScheduleInconsistencyError
  | Raise e => Raise e
  end.
Proof.
  unfold place_slot. intros -> -> Hlt. cbn.
  destruct (Z.gtb_spec t (nlend s)); [|lia].
  destruct (row_date table days (S stop)); reflexivity.
Qed.

(** ** Orchestration *)


End PopulateTable.

(** * Properties of the local-time normaliser *)

Section LocalTime.

Variable tz : tzinfo.

Lemma singleton_of_NoDup (l : list Z) (t : Z) :
  NoDup l -> t ∈ l -> (forall x, x ∈ l -> x = t) -> l = [t].
Proof.
  intros Hnd Hin Hall. destruct l as [|a l]; [inversion Hin|].
  assert (a = t) as -> by (apply Hall, list_elem_of_here).
  f_equal. destruct l as [|b l]; [reflexivity|].
  assert (b = t) as -> by (apply Hall, list_elem_of_further, list_elem_of_here).
  apply NoDup_cons in Hnd as [Hnot _]. exfalso. apply Hnot, list_elem_of_here.
Qed.

Lemma localize_candidates_spec nldate t :
  t ∈ localize_candidates tz nldate <->
  nld tz t = nldate /\ nldate - t ∈ zone_offsets tz.
Proof.
  unfold localize_candidates.
  rewrite elem_of_remove_dups, list_elem_of_filter, bool_decide_spec, list_elem_of_fmap.
  split.
  - intros [Hn (off & -> & Hoff)]. split; [exact Hn|].
    replace (nldate - (nldate - off)) with off by lia. exact Hoff.
  - intros [Hn Hoff]. split; [exact Hn|]. exists (nldate - t). split; [lia | exact Hoff].
Qed.

(** C7, as the code has it.  [un_nld] undoes [nld] at every aware
    timestamp whose local reading is the reading of no other instant
    (the zone's offset at it being one the zone database lists). *)
Theorem un_nld_nld (t : Z) :
  utcoffset tz t ∈ zone_offsets tz ->
  (forall t', nld tz t' = nld tz t -> t' = t) ->
  un_nld tz (nld tz t) = Ok t.
Proof.
  intros Hoff Honly. unfold un_nld, make_aware.
  rewrite (singleton_of_NoDup (localize_candidates tz (nld tz t)) t).
  - reflexivity.
  - apply NoDup_remove_dups.
  - apply localize_candidates_spec. split; [reflexivity|].
    unfold nld. replace (t + utcoffset tz t - t) with (utcoffset tz t) by lia.
    exact Hoff.
  - intros x [Hx _]%localize_candidates_spec. apply Honly, Hx.
Qed.

End LocalTime.

(** * Properties of the gap filler *)

Section Fill.

Lemma fill_from_contiguous timeslots : forall reached end_,
  ordered_non_overlapping timeslots ->
  (forall first, head timeslots = Some first -> reached <= range_start first) ->
  contiguous (fill_from reached timeslots end_) /\
  (forall x, head (fill_from reached timeslots end_) = Some x ->
     range_start x = reached).
Proof.
  induction timeslots as [|s rest IH]; intros reached end_ Hord Hfirst; cbn [fill_from].
  - destruct (reached <? end_); split.
    + intros [|i] p q Hp Hq; discriminate.
    + intros x [= <-]. reflexivity.
    + intros i p q Hp; discriminate.
    + discriminate.
  - assert (Hrest : ordered_non_overlapping rest)
      by (intros i p q Hp Hq; apply (Hord (S i) p q Hp Hq)).
    assert (Hnext : forall first, head rest = Some first ->
              range_end s <= range_start first).
    { intros first Hf. destruct rest as [|y l]; [discriminate|].
      injection Hf as ->. apply (Hord 0%nat s first eq_refl eq_refl). }
    destruct (IH (range_end s) end_ Hrest Hnext) as [Hc Hh].
    assert (Htail : contiguous (s :: fill_from (range_end s) rest end_)).
    { intros [|i] p q Hp Hq.
      - injection Hp as <-. symmetry. apply Hh.
        destruct (fill_from (range_end s) rest end_); [discriminate | exact Hq].
      - apply (Hc i p q Hp Hq). }
    specialize (Hfirst s eq_refl).
    destruct (Z.ltb_spec reached (range_start s)) as [Hlt|Hge]; cbn [app]; split.
    + intros [|i] p q Hp Hq.
      * injection Hp as <-. injection Hq as <-.
        unfold range_end, end_time, filler_slot; cbn. lia.
      * apply (Htail i p q Hp Hq).
    + intros x [= <-]. reflexivity.
    + exact Htail.
    + intros x [= <-]. lia.
Qed.

(** C8.  For an ordered, non-overlapping list of timeslots and a range
    whose start is not after its end, [fill] returns a sequence in which
    every slot ends where the next one begins. *)
Theorem fill_contiguous (timeslots : list Timeslot) (start end_ : Z) :
  ordered_non_overlapping timeslots ->
  start <= end_ ->
  exists filled,
    fill timeslots start end_ = Ok filled /\
    forall i p q, filled !! i = Some p -> filled !! S i = Some q ->
      range_end p = range_start q.
Proof.
  intros Hord Hle. unfold fill.
  destruct (Z.gtb_spec start end_) as [Hgt|_]; [lia|].
  destruct timeslots as [|s rest].
  - eexists. split; [reflexivity|]. intros [|i] p q Hp Hq; discriminate.
  - eexists. split; [reflexivity|]. cbn [fill_from].
    assert (Hrest : ordered_non_overlapping rest)
      by (intros i p q Hp Hq; apply (Hord (S i) p q Hp Hq)).
    assert (Hnext : forall first, head rest = Some first ->
              range_end s <= range_start first).
    { intros first Hf. destruct rest as [|y l]; [discriminate|].
      injection Hf as ->. apply (Hord 0%nat s first eq_refl eq_refl). }
    destruct (fill_from_contiguous rest (range_end s) end_ Hrest Hnext) as [Hc Hh].
    assert (Htail : contiguous (s :: fill_from (range_end s) rest end_)).
    { intros [|i] p q Hp Hq.
      - injection Hp as <-. symmetry. apply Hh.
        destruct (fill_from (range_end s) rest end_); [discriminate | exact Hq].
      - apply (Hc i p q Hp Hq). }
    destruct (start <? range_start s); cbn [app]; [|exact Htail].
    intros [|i] p q Hp Hq.
    + injection Hp as <-. injection Hq as <-.
      unfold range_end, end_time, filler_slot; cbn. lia.
    + apply (Htail i p q Hp Hq).
Qed.

End Fill.

(** * The properties at the sample schedules *)

Section Samples.

(** The show across midnight closes the first day and opens the second;
    in the table it ends the first day's column and is row 0 of the
    second day's, one row each. *)
Example sample_week_split :
  split_days utc 0 sample_week = Ok (sample_days, sample_offsets).
Proof. vm_compute. reflexivity. Qed.

Example sample_week_tabulated :
  tabulate utc {| start := 0; data := Slots sample_week |} = Ok (Table sample_table).
Proof. vm_compute. reflexivity. Qed.

(** A show from 09:00 to 10:00 in the range from 08:00 to 11:00. *)
Example fill_before_and_after :
  fill [slot_between "show" (hours 9) (hours 10)] (hours 8) (hours 11)
  = Ok [filler_slot (hours 8) (hours 9);
        slot_between "show" (hours 9) (hours 10);
        filler_slot (hours 10) (hours 11)].
Proof. reflexivity. Qed.

(** Two shows back to back, in exactly their range. *)
Example fill_nothing_to_fill :
  fill [slot_between "show" (hours 9) (hours 10);
        slot_between "show" (hours 10) (hours 11)] (hours 9) (hours 11)
  = Ok [slot_between "show" (hours 9) (hours 10);
        slot_between "show" (hours 10) (hours 11)].
Proof. reflexivity. Qed.

Example fill_backwards_range :
  fill [] (hours 2) 0 = Raise ValueError.
Proof. reflexivity. Qed.


Lemma split_days_empty_day_witness :
  closes_empty_day utc 0 [next_day_show] /\
  (1 <= length [evening_show; midnight_show])%nat.
Proof.
  split.
  - apply (proj1 (proj1 (proj2 (split_days_empty_day utc 0 [next_day_show]))
                    ScheduleInconsistencyError)).
    vm_compute. reflexivity.
  - apply (proj2 (proj2 (split_days_empty_day utc 0 sample_week))
             sample_days sample_offsets) with (k := 0%nat).
    + vm_compute. reflexivity.
    + vm_compute. lia.
    + reflexivity.
Defined.

Lemma split_days_row_offsets_witness :
  split_days utc 0 sample_week = Ok (sample_days, sample_offsets) /\
  (0 ∈ sample_offsets /\
   (forall i x, sample_week !! i = Some x ->
      (exists day,
         sample_days !! Z.to_nat (assigned_day utc 0 (take (S i) sample_week))
         = Some day /\ x ∈ day) /\
      (assigned_day_start utc 0 sample_week i < nld utc (start_time x) ->
       nld utc (start_time x) - assigned_day_start utc 0 sample_week i
       ∈ sample_offsets)) /\
   (forall y, y ∈ sample_offsets ->
      y = 0 \/
      exists i x, sample_week !! i = Some x /\
        assigned_day_start utc 0 sample_week i < nld utc (start_time x) /\
        y = nld utc (start_time x) - assigned_day_start utc 0 sample_week i)).
Proof.
  assert (H : split_days utc 0 sample_week = Ok (sample_days, sample_offsets))
    by (vm_compute; reflexivity).
  split; [exact H|].
  apply (split_days_row_offsets utc 0 sample_week sample_days sample_offsets H).
Defined.

Lemma split_days_offsets_within_day_witness :
  split_days utc 0 sample_week = Ok (sample_days, sample_offsets) /\
  (0 ∈ sample_offsets /\
   (forall y, y ∈ sample_offsets -> 0 <= y < DAY) /\
   (forall y, y ∈ sample_offsets -> y <> 0 -> 0 < y < DAY) /\
   (forall i x, sample_week !! i = Some x ->
      nld utc (start_time x) < assigned_day_start utc 0 sample_week i + DAY)).
Proof.
  assert (H : split_days utc 0 sample_week = Ok (sample_days, sample_offsets))
    by (vm_compute; reflexivity).
  split; [exact H|].
  apply (split_days_offsets_within_day utc 0 sample_week sample_days sample_offsets H).
Defined.



Lemma un_nld_nld_witness :
  un_nld summer_zone (nld summer_zone 0) = Ok 0.
Proof.
  apply (un_nld_nld summer_zone 0).
  - vm_compute. apply list_elem_of_here.
  - intros t'. unfold nld, summer_zone; cbn [utcoffset].
    change (0 <? summer_ends) with true.
    destruct (Z.ltb_spec t' summer_ends); unfold summer_ends, hours in *; lia.
Defined.

Lemma fill_contiguous_witness :
  exists filled,
    fill [slot_between "show" (hours 9) (hours 10)] (hours 8) (hours 11) = Ok filled /\
    forall i p q, filled !! i = Some p -> filled !! S i = Some q ->
      range_end p = range_start q.
Proof.
  apply (fill_contiguous [slot_between "show" (hours 9) (hours 10)] (hours 8) (hours 11)).
  - intros [|i] p q Hp Hq; discriminate.
  - vm_compute. discriminate.
Defined.

(** ** Where the code departs from what is said of it *)

(** C3.  Two shows with an uncovered hour between them: the first
    show's cursor stops on the last row, which begins after the show
    ends; the check finds the mismatch, and building its message reads
    the row after the last one. *)
Theorem populate_table_misaligned_last_row :
  split_days utc 0 [first_show; late_show]
  = Ok ([[first_show; late_show]], {[ 0; hours 3 ]}) /\
  advance_row (empty_table 0 {[ 0; hours 3 ]} 1) 0
    (nld utc (end_time first_show)) 0 = (1%nat, Ok ()) /\
  row_date (empty_table 0 {[ 0; hours 3 ]} 1) 0 1 = Ok (hours 3) /\
  nld utc (end_time first_show) = hours 2 /\
  populate_table utc (empty_table 0 {[ 0; hours 3 ]} 1) [[first_show; late_show]]
  = Raise IndexError /\
  tabulate utc {| start := 0; data := Slots [first_show; late_show] |}
  = Raise IndexError.
Proof. repeat split; vm_compute; reflexivity. Qed.


(** C7 as first stated fails: the two instants either side of the end
    of summer time read alike, so neither is what [un_nld] returns for
    that reading; it raises. *)
Lemma un_nld_ambiguous :
  nld summer_zone before_change = nld summer_zone after_change /\
  before_change <> after_change /\
  un_nld summer_zone (nld summer_zone before_change) = Raise AmbiguousTimeError /\
  un_nld summer_zone (nld summer_zone before_change) <> Ok before_change.
Proof.
  repeat split; try (vm_compute; reflexivity); vm_compute; discriminate.
Qed.

End Samples.

(** * Further properties of the table builder *)

Section TableFrame.

Variable tz : tzinfo.

Abbreviation nlslot s := (nld tz (start_time s)).
Abbreviation nlend s := (nld tz (end_time s)).

Lemma StronglySorted_lookup_lt {A : Type} (R : relation A) (l : list A) :
  StronglySorted R l ->
  forall i j a b, l !! i = Some a -> l !! j = Some b -> (i < j)%nat -> R a b.
Proof.
  induction 1 as [|x l Hl IH Hx]; intros i j a b Hi Hj Hlt; [discriminate|].
  destruct j as [|j]; [lia|]. cbn in Hj.
  destruct i as [|i].
  - injection Hi as <-. eapply Forall_forall; [exact Hx|].
    eapply list_elem_of_lookup_2, Hj.
  - cbn in Hi. apply (IH i j); auto. lia.
Qed.

Lemma sorted_elem parts x : x ∈ sorted parts <-> x ∈ parts.
Proof.
  unfold sorted. rewrite merge_sort_Permutation. apply elem_of_elements.
Qed.

Lemma sorted_length parts : length (sorted parts) = size parts.
Proof.
  unfold sorted. rewrite merge_sort_Permutation. reflexivity.
Qed.

Lemma sorted_increasing parts i j a b :
  sorted parts !! i = Some a -> sorted parts !! j = Some b ->
  (i < j)%nat -> a < b.
Proof.
  intros Hi Hj Hlt.
  assert (a <= b).
  { eapply (StronglySorted_lookup_lt Z.le (sorted parts)); eauto.
    apply StronglySorted_merge_sort; apply _. }
  assert (a <> b).
  { intros ->.
    assert (Hnd : NoDup (sorted parts)).
    { unfold sorted. rewrite merge_sort_Permutation. apply NoDup_elements. }
    pose proof (NoDup_lookup _ _ _ _ Hnd Hi Hj). lia. }
  lia.
Qed.

Lemma row_date_empty_table nlstart parts n days r :
  row_date (empty_table nlstart parts n) days r =
  match sorted parts !! r with
  | Some i => Ok (nlstart + i + timedelta_days (Z.of_nat days))
  | None => Raise IndexError
  end.
Proof.
  rewrite row_date_cell, cell_at_empty_table.
  destruct (sorted parts !! r); reflexivity.
Qed.

(** X1.  [empty_table] has one row for each distinct offset; every row
    has the time cell and [n_cols] cells, all of them [None]; the times
    are [nlstart] plus the offsets in strictly increasing order, each
    offset on one row. *)
Theorem empty_table_shape (nlstart : Z) (parts : gset Z) (n_cols : nat) :
  length (empty_table nlstart parts n_cols) = size parts /\
  (forall r row, empty_table nlstart parts n_cols !! r = Some row ->
     length row = S n_cols /\
     (exists i, i ∈ parts /\ row !! SCHEDULE_TIME_COL = Some (CTime (nlstart + i))) /\
     (forall c, (1 <= c <= n_cols)%nat -> row !! c = Some CNone)) /\
  (forall i, i ∈ parts ->
     exists r, cell_at (empty_table nlstart parts n_cols) r SCHEDULE_TIME_COL
               = Some (CTime (nlstart + i))) /\
  (forall r1 r2 t1 t2,
     cell_at (empty_table nlstart parts n_cols) r1 SCHEDULE_TIME_COL = Some (CTime t1) ->
     cell_at (empty_table nlstart parts n_cols) r2 SCHEDULE_TIME_COL = Some (CTime t2) ->
     (r1 < r2)%nat -> t1 < t2).
Proof.
  split; [rewrite length_empty_table; apply sorted_length|].
  split; [|split].
  - intros r row Hrow. unfold empty_table in Hrow.
    rewrite list_lookup_fmap in Hrow.
    destruct (sorted parts !! r) as [i|] eqn:Hi; [|discriminate].
    injection Hrow as <-. split; [cbn; rewrite length_replicate; reflexivity|].
    split.
    + exists i. split; [|reflexivity].
      apply sorted_elem. eapply list_elem_of_lookup_2, Hi.
    + intros [|c] Hc; [lia|]. cbn. apply lookup_replicate_2. lia.
  - intros i [r Hr]%sorted_elem%list_elem_of_lookup_1. exists r.
    rewrite cell_at_empty_table, Hr. reflexivity.
  - intros r1 r2 t1 t2. rewrite !cell_at_empty_table.
    destruct (sorted parts !! r1) as [i1|] eqn:H1; [|discriminate].
    destruct (sorted parts !! r2) as [i2|] eqn:H2; [|discriminate].
    intros [= <-] [= <-] Hlt.
    pose proof (sorted_increasing _ _ _ _ _ H1 H2 Hlt). lia.
Qed.

(** X2.  On an [empty_table] grid [row_date] never raises in the table
    and raises [IndexError] from the row count on; for a day it is
    strictly increasing in the row, it begins at the day's start when the
    zero offset is among the offsets, and it stays within the day when
    all the offsets are within a day. *)
Theorem row_date_of_empty_table (nlstart : Z) (parts : gset Z)
    (n_cols days : nat) :
  (forall r, (r < size parts)%nat ->
     exists i, i ∈ parts /\
       row_date (empty_table nlstart parts n_cols) days r
       = Ok (nlstart + i + timedelta_days (Z.of_nat days))) /\
  (forall r, (size parts <= r)%nat ->
     row_date (empty_table nlstart parts n_cols) days r = Raise IndexError) /\
  (forall r1 r2 t1 t2,
     row_date (empty_table nlstart parts n_cols) days r1 = Ok t1 ->
     row_date (empty_table nlstart parts n_cols) days r2 = Ok t2 ->
     (r1 < r2)%nat -> t1 < t2) /\
  (0 ∈ parts -> (forall i, i ∈ parts -> 0 <= i) ->
   row_date (empty_table nlstart parts n_cols) days 0
   = Ok (nlstart + timedelta_days (Z.of_nat days))).
Proof.
  split; [|split; [|split]].
  - intros r Hr. rewrite <- sorted_length in Hr.
    destruct (lookup_lt_is_Some_2 _ _ Hr) as [i Hi].
    exists i. split; [apply sorted_elem; eapply list_elem_of_lookup_2, Hi|].
    rewrite row_date_empty_table, Hi. reflexivity.
  - intros r Hr. rewrite <- sorted_length in Hr.
    rewrite row_date_empty_table, (lookup_ge_None_2 _ _ Hr). reflexivity.
  - intros r1 r2 t1 t2. rewrite !row_date_empty_table.
    destruct (sorted parts !! r1) as [i1|] eqn:H1; [|discriminate].
    destruct (sorted parts !! r2) as [i2|] eqn:H2; [|discriminate].
    intros [= <-] [= <-] Hlt.
    pose proof (sorted_increasing _ _ _ _ _ H1 H2 Hlt). lia.
  - intros Hzero Hnonneg. rewrite row_date_empty_table.
    apply sorted_elem, list_elem_of_lookup_1 in Hzero as [r Hr].
    destruct (sorted parts !! 0%nat) as [i|] eqn:Hi.
    + assert (i = 0) as ->; [|do 2 f_equal; lia].
      destruct r as [|r]; [congruence|].
      pose proof (sorted_increasing _ _ _ _ _ Hi Hr ltac:(lia)).
      assert (0 <= i) by (apply Hnonneg, sorted_elem; eapply list_elem_of_lookup_2, Hi).
      lia.
    + apply lookup_ge_None_1 in Hi. apply lookup_lt_Some in Hr. lia.
Qed.

Lemma add_to_table_Raise table days row s k e :
  add_to_table table days row s k = Raise e <->
  e = IndexError /\ cell_at table row (SCHEDULE_DAY_OFFSET + days) = None.
Proof.
  unfold add_to_table, cell_at. destruct (table !! row) as [r0|]; cbn.
  - case_bool_decide as Hc.
    + split; [discriminate|]. intros [_ H%lookup_ge_None_1]. lia.
    + split.
      * intros [= <-]. split; [reflexivity|]. apply lookup_ge_None_2. lia.
      * intros [-> _]. reflexivity.
  - split; [intros [= <-]; auto | intros [-> _]; reflexivity].
Qed.


(** X4.  The row loop leaves the cursor at or after where it was and no
    further than one past the last row; every row it passed begins
    before [nlend]; it stops normally on a row that does not begin before
    [nlend], and otherwise with what reading the row it is on raises. *)
Theorem advance_row_cursor (table : list (list cell)) (days : nat) (nlend : Z)
    (cur stop : nat) (exit : result unit) :
  advance_row table days nlend cur = (stop, exit) ->
  (cur <= stop)%nat /\
  ((cur <= length table)%nat -> (stop <= length table)%nat) /\
  (forall r, (cur <= r < stop)%nat ->
     exists t, row_date table days r = Ok t /\ t < nlend) /\
  match exit with
  | Ok _ => exists t, row_date table days stop = Ok t /\ nlend <= t
  | Raise e => row_date table days stop = Raise e
  end.
Proof.
  intros Hrun. destruct (advance_row_spec _ _ _ _ _ _ Hrun) as (H1 & H2 & H3).
  pose proof (advance_row_bounds table days nlend cur) as [_ Hb].
  rewrite Hrun in Hb. auto.
Qed.

Lemma row_date_Raise table days r e :
  row_date table days r = Raise e -> e = IndexError \/ e = TypeError.
Proof.
  rewrite row_date_cell.
  destruct (cell_at table r SCHEDULE_TIME_COL) as [[]|]; intros [= <-]; auto.
Qed.

Lemma place_slot_cases days table cur s :
  forall stop exit,
  advance_row table days (nlend s) cur = (stop, exit) ->
  place_slot tz days (table, cur) s =
  match exit with
  | Raise IndexError =>
      table' ← add_to_table table days cur s (Z.of_nat stop - Z.of_nat cur);
      Ok (table', stop)
  | Raise e => Raise e
  | Ok _ =>
      match row_date table days stop with
      | Raise e => Raise e
      | Ok t =>
          if t >? nlend s
          then match row_date table days (S stop) with
               | Ok _ => Raise ScheduleInconsistencyError
               | Raise e => Raise e
               end
          else table' ← add_to_table table days cur s
                          (Z.of_nat stop - Z.of_nat cur);
               Ok (table', stop)
      end
  end.
Proof.
  intros stop exit Hrun. unfold place_slot. rewrite Hrun.
  destruct exit as [[]|e].
  - destruct (row_date table days stop) as [t|e]; [|reflexivity]. cbn.
    destruct (t >? nlend s); [|reflexivity].
    destruct (row_date table days (S stop)); reflexivity.
  - destruct e; reflexivity.
Qed.

(** X5.  Placing a slot raises [ScheduleInconsistencyError] exactly when
    the cursor stops on a row that begins strictly after the slot's local
    end and the row after that one can be read. *)
Theorem place_slot_inconsistency (days : nat) (table : list (list cell))
    (cur : nat) (s : Timeslot) :
  place_slot tz days (table, cur) s = Raise ScheduleInconsistencyError <->
  exists stop t t',
    advance_row table days (nlend s) cur = (stop, Ok ()) /\
    row_date table days stop = Ok t /\ nlend s < t /\
    row_date table days (S stop) = Ok t'.
Proof.
  destruct (advance_row table days (nlend s) cur) as [stop exit] eqn:Hrun.
  rewrite (place_slot_cases _ _ _ _ _ _ Hrun).
  pose proof (advance_row_spec _ _ _ _ _ _ Hrun) as (_ & _ & Hexit).
  split.
  - destruct exit as [[]|e].
    + destruct (row_date table days stop) as [t|e] eqn:Ht.
      * destruct (Z.gtb_spec t (nlend s)) as [Hgt|Hle].
        -- destruct (row_date table days (S stop)) as [t'|e'] eqn:Ht'.
           ++ intros _. exists stop, t, t'. auto.
           ++ intros [= ->]. apply row_date_Raise in Ht' as [?|?]; discriminate.
        -- destruct (add_to_table _ _ _ _ _) eqn:Ha; cbn; [discriminate|].
           intros [= ->]. apply add_to_table_Raise in Ha as [? _]. discriminate.
      * intros [= ->]. apply row_date_Raise in Ht as [?|?]; discriminate.
    + apply row_date_Raise in Hexit.
      destruct e; try (destruct Hexit; discriminate); try discriminate.
      destruct (add_to_table _ _ _ _ _) eqn:Ha; cbn; [discriminate|].
      intros [= ->]. apply add_to_table_Raise in Ha as [? _]. discriminate.
  - intros (stop' & t & t' & [= -> ->] & Ht & Hlt & Ht').
    rewrite Ht, Ht'. destruct (Z.gtb_spec t (nlend s)); [reflexivity | lia].
Qed.

(** X6.  Placing a slot succeeds exactly when the cursor runs past the
    last row, or stops on a row that begins at the slot's local end, and
    the table has the cell of the slot's start row in the day's column;
    the slot is then written there with the number of rows the cursor
    moved, and the cursor is left where the loop left it. *)
Theorem place_slot_success (days : nat) (table : list (list cell))
    (cur : nat) (s : Timeslot) (table' : list (list cell)) (cur' : nat) :
  place_slot tz days (table, cur) s = Ok (table', cur') <->
  exists exit,
    advance_row table days (nlend s) cur = (cur', exit) /\
    (exit = Raise IndexError \/
     (exit = Ok () /\ row_date table days cur' = Ok (nlend s))) /\
    add_to_table table days cur s (Z.of_nat cur' - Z.of_nat cur) = Ok table'.
Proof.
  destruct (advance_row table days (nlend s) cur) as [stop exit] eqn:Hrun.
  rewrite (place_slot_cases _ _ _ _ _ _ Hrun).
  pose proof (advance_row_spec _ _ _ _ _ _ Hrun) as (_ & _ & Hexit).
  split.
  - destruct exit as [[]|e].
    + destruct Hexit as (t & Ht & Hge). rewrite Ht.
      destruct (Z.gtb_spec t (nlend s)) as [Hgt|Hle].
      * destruct (row_date table days (S stop)); discriminate.
      * destruct (add_to_table _ _ _ _ _) as [t1|] eqn:Ha; cbn; [|discriminate].
        intros [= <- <-]. exists (Ok ()). split; [reflexivity|].
        split; [|exact Ha]. right. split; [reflexivity|].
        rewrite Ht. f_equal. lia.
    + destruct e; try discriminate.
      destruct (add_to_table _ _ _ _ _) as [t1|] eqn:Ha; cbn; [|discriminate].
      intros [= <- <-]. exists (Raise IndexError). auto.
  - intros (exit' & [= -> ->] & Hcase & Ha).
    destruct Hcase as [->|[-> Ht]].
    + rewrite Ha. reflexivity.
    + rewrite Ht. destruct (Z.gtb_spec (nlend s) (nlend s)); [lia|].
      rewrite Ha. reflexivity.
Qed.

Lemma place_slot_beyond days table cur s :
  (length table <= cur)%nat ->
  place_slot tz days (table, cur) s = Raise IndexError.
Proof.
  intros Hcur.
  assert (Hnone : table !! cur = None) by (apply lookup_ge_None_2, Hcur).
  assert (Hrow : row_date table days cur = Raise IndexError)
    by (unfold row_date; rewrite Hnone; reflexivity).
  assert (Hadv : advance_row table days (nlend s) cur = (cur, Raise IndexError))
    by (rewrite advance_row_eq, Hrow; reflexivity).
  rewrite (place_slot_cases _ _ _ _ _ _ Hadv).
  unfold add_to_table. rewrite Hnone. reflexivity.
Qed.

(** X15.  Once the cursor is past the last row, placing a slot raises
    [IndexError]: the loop's [IndexError] is absorbed, the write at the
    start row is not.  So a day in which a slot is followed by another
    after the cursor has run past the last row raises [IndexError]. *)
Theorem place_slot_past_the_rows (days : nat) (table : list (list cell))
    (cur : nat) (s : Timeslot) :
  ((length table <= cur)%nat ->
   place_slot tz days (table, cur) s = Raise IndexError) /\
  (forall table1 cur1 next rest,
     place_slot tz days (table, cur) s = Ok (table1, cur1) ->
     (length table <= cur1)%nat ->
     for_each (place_slot tz days) (table, cur) (s :: next :: rest)
     = Raise IndexError).
Proof.
  split; [apply place_slot_beyond|].
  intros table1 cur1 next rest Hs Hcur1. cbn [for_each]. rewrite Hs.
  cbn -[place_slot]. rewrite place_slot_beyond; [reflexivity|].
  apply place_slot_Ok in Hs as [_ (_ & Hlen & _)%add_to_table_Ok]. lia.
Qed.

Lemma for_each_related {S A : Type} (body : S -> A -> result S)
    (R : relation S) (xs : list A) :
  Reflexive R -> Transitive R ->
  (forall st x st', x ∈ xs -> body st x = Ok st' -> R st st') ->
  forall st st', for_each body st xs = Ok st' -> R st st'.
Proof.
  intros Hrefl Htrans. induction xs as [|x xs IH]; intros Hbody st st'.
  - intros [= <-]. reflexivity.
  - cbn. destruct (body st x) as [st1|] eqn:Hx; [|discriminate]. cbn. intros Hrest.
    transitivity st1.
    + eapply Hbody; [apply list_elem_of_here | exact Hx].
    + apply IH; [|exact Hrest].
      intros st0 y st0' Hy. apply Hbody. apply list_elem_of_further, Hy.
Qed.

#[local] Instance kept_refl changed : Reflexive (kept changed).
Proof.
  intros t. split; [split; [reflexivity|]; split; reflexivity|].
  intros r c. left. reflexivity.
Qed.

#[local] Instance kept_trans changed : Transitive (kept changed).
Proof.
  intros t1 t2 t3 [(L1 & S1 & T1) W1] [(L2 & S2 & T2) W2].
  split; [split; [congruence|]; split|].
  - intros r c. rewrite S2. apply S1.
  - intros r. rewrite T2. apply T1.
  - intros r c. destruct (W2 r c) as [E|H]; [|right; exact H].
    rewrite E. apply W1.
Qed.

Lemma kept_weaken (P Q : nat -> Prop) table table' :
  (forall c, P c -> Q c) -> kept P table table' -> kept Q table table'.
Proof.
  intros HPQ [F W]. split; [exact F|].
  intros r c. destruct (W r c) as [E|[Hc H]]; [left; exact E | right; auto].
Qed.

Lemma add_to_table_kept table days row s k table' :
  add_to_table table days row s k = Ok table' ->
  kept (fun c => c = (SCHEDULE_DAY_OFFSET + days)%nat) table table'.
Proof.
  intros Ha.
  assert (Hsome : is_Some (cell_at table row (SCHEDULE_DAY_OFFSET + days))).
  { destruct (cell_at table row (SCHEDULE_DAY_OFFSET + days)) eqn:E; [eauto|].
    assert (add_to_table table days row s k = Raise IndexError) as Hr
      by (apply add_to_table_Raise; auto).
    rewrite Hr in Ha. discriminate. }
  apply add_to_table_Ok in Ha as (_ & Hlen & Hcell).
  split; [split; [exact Hlen|]; split|].
  - intros r c. rewrite Hcell. case_decide as Hd; [|reflexivity].
    destruct Hd as [-> ->]. split; [intros _; exact Hsome | eauto].
  - intros r. rewrite Hcell, decide_False; [reflexivity|].
    unfold SCHEDULE_TIME_COL, SCHEDULE_DAY_OFFSET. lia.
  - intros r c. rewrite Hcell. case_decide as Hd; [|left; reflexivity].
    right. split; [tauto | eauto].
Qed.

Lemma populate_table_day_kept table days day table' :
  populate_table_day tz table days day = Ok table' ->
  kept (fun c => c = (SCHEDULE_DAY_OFFSET + days)%nat) table table'.
Proof.
  intros (cur' & Hrun)%populate_table_day_Ok.
  apply (for_each_related (place_slot tz days)
           (fun st st' => kept (fun c => c = (SCHEDULE_DAY_OFFSET + days)%nat)
                            st.1 st'.1) day) in Hrun; [exact Hrun| | |].
  - intros st. reflexivity.
  - intros st1 st2 st3 H12 H23. etransitivity; eassumption.
  - intros [t c] x [t1 c1] _ (_ & Ha)%place_slot_Ok. cbn.
    eapply add_to_table_kept, Ha.
Qed.

Lemma enumerate_lookup {A : Type} (l : list A) i x :
  (i, x) ∈ enumerate l <-> l !! i = Some x.
Proof.
  unfold enumerate. rewrite list_elem_of_lookup. split.
  - intros [j Hj]. rewrite list_lookup_imap in Hj.
    destruct (l !! j) as [y|] eqn:E; [|discriminate].
    cbn in Hj. injection Hj as <- <-. exact E.
  - intros Hi. exists i. rewrite list_lookup_imap, Hi. reflexivity.
Qed.

Lemma populate_table_kept table lists table' :
  populate_table tz table lists = Ok table' ->
  kept (fun c => (SCHEDULE_DAY_OFFSET <= c < SCHEDULE_DAY_OFFSET + length lists)%nat)
       table table'.
Proof.
  unfold populate_table. apply for_each_related; [apply _ | apply _ |].
  intros t [i day] t1 Hin%enumerate_lookup Hday.
  eapply kept_weaken; [|eapply populate_table_day_kept, Hday].
  intros c ->. apply lookup_lt_Some in Hin. lia.
Qed.

(** X7.  [populate_table] keeps the frame of whatever table it is given:
    the number of rows, the cells each row has, the time column.  A cell
    it changes is in the column of one of the days and holds a slot pair
    afterwards. *)
Theorem populate_table_frame (table : list (list cell))
    (lists : list (list Timeslot)) (table' : list (list cell)) :
  populate_table tz table lists = Ok table' ->
  length table' = length table /\
  (forall r c, is_Some (cell_at table' r c) <-> is_Some (cell_at table r c)) /\
  (forall r, cell_at table' r SCHEDULE_TIME_COL = cell_at table r SCHEDULE_TIME_COL) /\
  (forall r c, cell_at table' r c <> cell_at table r c ->
     (SCHEDULE_DAY_OFFSET <= c < SCHEDULE_DAY_OFFSET + length lists)%nat /\
     exists s k, cell_at table' r c = Some (CSlot s k)).
Proof.
  intros [(L & S & T) W]%populate_table_kept.
  split; [exact L|]. split; [exact S|]. split; [exact T|].
  intros r c Hne. destruct (W r c) as [E|H]; [contradiction | exact H].
Qed.

Lemma populate_table_columns table lists :
  forall table',
  populate_table tz table lists = Ok table' ->
  forall d day, lists !! d = Some day -> day <> [] ->
    is_Some (cell_at table 0 (SCHEDULE_DAY_OFFSET + d)).
Proof.
  induction lists as [|day0 lists IH] using rev_ind; intros table'.
  - intros _ d day H. discriminate.
  - unfold populate_table. rewrite enumerate_snoc, for_each_snoc.
    fold (populate_table tz table lists).
    destruct (populate_table tz table lists) as [T|e] eqn:HT; [|discriminate].
    cbn. intros Hday d day [Hd|[Hge Hd]]%lookup_app_Some Hne.
    + eapply IH; eauto.
    + apply list_lookup_singleton_Some in Hd as [Hd <-].
      assert (d = length lists) as -> by lia.
      apply populate_table_day_Ok in Hday as [cur' Hrun].
      destruct (place_slots_column _ _ _ _ _ _ Hrun) as [->|Hsome]; [contradiction|].
      apply populate_table_kept in HT as [(_ & S & _) _]. apply S, Hsome.
Qed.

(** X8.  [populate_table] can only succeed on a table whose first row
    has a cell in the column of every day that has a slot: with a day
    list too many for the columns, or with no row at all, it raises. *)
Theorem populate_table_needs_columns (table : list (list cell))
    (lists : list (list Timeslot)) (table' : list (list cell)) :
  populate_table tz table lists = Ok table' ->
  forall d day, lists !! d = Some day -> day <> [] ->
    exists row, table !! 0%nat = Some row /\
                (SCHEDULE_DAY_OFFSET + d < length row)%nat.
Proof.
  intros Hp d day Hd Hne.
  destruct (populate_table_columns _ _ _ Hp d day Hd Hne) as [v Hv].
  unfold cell_at in Hv. destruct (table !! 0%nat) as [row|]; [|discriminate].
  exists row. split; [reflexivity|]. eapply lookup_lt_Some, Hv.
Qed.

(** X9.  The table [tabulate] returns has one row for each row offset of
    [split_days], at least one, and every row has the time cell and one
    cell for each day list. *)
Theorem tabulate_dimensions (schedule : Schedule) (table : list (list cell)) :
  tabulate tz schedule = Ok (Table table) ->
  exists slots lists parts,
    data schedule = Slots slots /\
    split_days tz (nld tz (start schedule)) slots = Ok (lists, parts) /\
    length table = size parts /\
    (1 <= length table)%nat /\
    forall r row, table !! r = Some row -> length row = S (length lists).
Proof.
  unfold tabulate. destruct (data schedule) as [m|slots]; [discriminate|].
  destruct (split_days tz (nld tz (start schedule)) slots) as [[lists parts]|e] eqn:Hs;
    [|discriminate].
  cbn. destruct (populate_table tz _ lists) as [t|e] eqn:Hp; [|discriminate].
  cbn. intros [= <-]. exists slots, lists, parts.
  split; [reflexivity|]. split; [exact Hs|].
  apply populate_table_kept in Hp as [(L & Hsh & _) _].
  rewrite length_empty_table, sorted_length in L.
  assert (Hzero : 0 ∈ parts).
  { apply split_days_Ok in Hs as (st & Hrun & _ & ->).
    apply split_run_inv in Hrun as [Hinv _]. apply (inv_zero _ _ _ Hinv). }
  split; [exact L|]. split.
  - rewrite L. destruct (size parts) eqn:E; [|lia].
    apply size_empty_iff in E. rewrite E in Hzero. apply not_elem_of_empty in Hzero.
    contradiction.
  - intros r row Hrow.
    assert (Hr : (r < length (sorted parts))%nat)
      by (rewrite sorted_length, <- L; eapply lookup_lt_Some, Hrow).
    destruct (lookup_lt_is_Some_2 _ _ Hr) as [i Hi].
    assert (Hcell : forall c, is_Some (row !! c) <-> (c < S (length lists))%nat).
    { intros c. specialize (Hsh r c). unfold cell_at at 1 in Hsh. rewrite Hrow in Hsh.
      cbn in Hsh. rewrite Hsh, cell_at_empty_table, Hi.
      destruct c as [|c]; [split; [lia | eauto]|].
      case_decide; split; try lia; eauto. intros [? [=]]. }
    destruct (Nat.lt_trichotomy (length row) (S (length lists))) as [Hlt|[E|Hgt]];
      [|exact E|].
    + apply Hcell, lookup_lt_is_Some_1 in Hlt. lia.
    + assert (is_Some (row !! S (length lists))) as H%Hcell
        by (apply lookup_lt_is_Some_2; lia). lia.
Qed.

End TableFrame.

(** * Further properties of the day partitioner *)

Section DayLists.

Variable tz : tzinfo.

Abbreviation nlslot s := (nld tz (start_time s)).
Abbreviation nlend s := (nld tz (end_time s)).

Ltac day_lia := unfold DAY in *; lia.

Lemma uncarried_snoc before lists day :
  uncarried before (lists ++ [day]) =
  uncarried before lists ++
  strip_carried (match last lists with Some d => last d | None => before end) day.
Proof.
  revert before. induction lists as [|d lists IH]; intros before; cbn.
  - apply app_nil_r.
  - rewrite IH, app_assoc. do 2 f_equal.
    destruct lists as [|d' lists]; [reflexivity|].
    rewrite last_cons_cons.
    destruct (last (d' :: lists)) eqn:E; [reflexivity|].
    apply last_None in E. discriminate.
Qed.

Lemma last_days_of st : last (days_of st) = Some (day_list st).
Proof. unfold days_of. apply last_snoc. Qed.

Lemma uncarried_rotated st dl dn :
  rotate_day tz (day_end st) (day_list st) (done_day_lists st) = Ok (dl, dn) ->
  uncarried None (days_of (rotated st dl dn)) = uncarried None (days_of st).
Proof.
  intros (s & Hlast & [= -> ->])%rotate_day_Ok.
  change (days_of (rotated st _ _))
    with (days_of st ++ [if nlend s >? day_end st then [s] else []]).
  rewrite uncarried_snoc, last_days_of, Hlast.
  destruct (nlend s >? day_end st); cbn.
  - rewrite decide_True by reflexivity. apply app_nil_r.
  - apply app_nil_r.
Qed.

Lemma uncarried_appended nlstart st x :
  split_inv tz nlstart st ->
  (done_day_lists st = [] \/ day_list st <> [] \/ day_start st <= nlslot x) ->
  uncarried None (days_of (appended tz st x)) = uncarried None (days_of st) ++ [x].
Proof.
  intros Hinv Hhead.
  change (days_of (appended tz st x)) with (done_day_lists st ++ [day_list st ++ [x]]).
  unfold days_of. rewrite !uncarried_snoc, <- app_assoc. f_equal.
  destruct (last (done_day_lists st)) as [d|] eqn:Hd; [|reflexivity].
  destruct (last d) as [p|] eqn:Hp; [|reflexivity].
  destruct (day_list st) as [|h rest] eqn:Hl.
  - cbn. rewrite decide_False; [reflexivity|]. intros ->.
    assert (Hk : done_day_lists st !! pred (length (done_day_lists st)) = Some d)
      by (rewrite <- last_lookup; exact Hd).
    assert (Hlen : (0 < length (done_day_lists st))%nat)
      by (apply lookup_lt_Some in Hk; lia).
    assert (Hdays : days_of st !! pred (length (done_day_lists st)) = Some d)
      by (apply lookup_days_of; auto).
    pose proof (inv_before _ _ _ Hinv _ _ _ Hdays (last_elem_of _ _ Hp)) as Hb.
    destruct Hhead as [E|[E|E]].
    + rewrite E in Hlen. cbn in Hlen. lia.
    + congruence.
    + rewrite (inv_start _ _ _ Hinv) in E. day_lia.
  - cbn. destruct (decide (h = p)); reflexivity.
Qed.

Lemma split_run_uncarried nlstart pre st :
  split_run tz nlstart pre = Ok st ->
  uncarried None (days_of st) = pre.
Proof.
  revert st. induction pre as [|x pre IH] using rev_ind; intros st.
  - intros [= <-]. reflexivity.
  - intros Hrun. pose proof Hrun as Hrun'.
    unfold split_run in Hrun. rewrite for_each_snoc in Hrun.
    destruct (for_each (split_slot tz) (split_init nlstart) pre) as [st0|] eqn:Hpre;
      [|discriminate].
    cbn in Hrun.
    destruct (split_run_inv tz _ _ _ Hpre) as [Hinv0 [P1 _ _ _]].
    assert (Hne : done_day_lists st0 = [] \/ day_list st0 <> []).
    { destruct pre as [|p pre] using rev_ind.
      - left. injection Hpre as <-. reflexivity.
      - right. intros E. rewrite E, last_snoc in P1. discriminate. }
    destruct (split_slot_Ok tz _ _ _ _ Hinv0 Hne Hrun)
      as (st1 & Hrot & -> & Hinv1 & _ & _ & _ & _ & Hcase).
    rewrite (uncarried_appended nlstart);
      [|exact Hinv1|destruct Hcase as [->|[? _]]; [destruct Hne|]; auto].
    f_equal. rewrite <- (IH _ Hpre).
    eapply (rotate_while_rule tz
              (fun s => uncarried None (days_of s) = uncarried None (days_of st0))
              (nlslot x) st0 st1); [reflexivity| |exact Hrot].
    intros s dl dn Hs _ Hr. rewrite (uncarried_rotated _ _ _ Hr). exact Hs.
Qed.

Lemma assigned_day_bounds nlstart data :
  (forall x, x ∈ data -> (nlslot x - nlstart) / DAY <= assigned_day tz nlstart data) /\
  (assigned_day tz nlstart data = 0 \/
   exists x, x ∈ data /\ assigned_day tz nlstart data = (nlslot x - nlstart) / DAY).
Proof.
  induction data as [|x pre [IH1 IH2]] using rev_ind.
  - split; [intros x Hx; inversion Hx | left; reflexivity].
  - rewrite assigned_day_snoc. unfold next_day. split.
    + intros y [Hy|Hy]%elem_of_app.
      * specialize (IH1 y Hy). lia.
      * apply list_elem_of_singleton in Hy as ->. lia.
    + destruct (Z.max_spec (assigned_day tz nlstart pre) ((nlslot x - nlstart) / DAY))
        as [[_ ->]|[_ ->]].
      * right. exists x. split; [|reflexivity].
        apply elem_of_app. right. apply list_elem_of_singleton. reflexivity.
      * destruct IH2 as [E|(y & Hy & E)]; [auto|].
        right. exists y. split; [|exact E]. apply elem_of_app. auto.
Qed.

(** X10.  [split_days] returns one day list more than the day of the
    last slot it placed: no slot starts in a later day than that lists
    reach, and the last list is the first day's or the day some slot
    starts in. *)
Theorem split_days_day_count (nlstart : Z) (data : list Timeslot)
    (lists : list (list Timeslot)) (parts : gset Z) :
  split_days tz nlstart data = Ok (lists, parts) ->
  Z.of_nat (length lists) = assigned_day tz nlstart data + 1 /\
  (forall x, x ∈ data -> (nlslot x - nlstart) / DAY < Z.of_nat (length lists)) /\
  (length lists = 1%nat \/
   exists x, x ∈ data /\ Z.of_nat (length lists) = (nlslot x - nlstart) / DAY + 1).
Proof.
  intros (st & Hrun & -> & ->)%split_days_Ok.
  apply split_run_inv in Hrun as [_ [_ P2 _ _]].
  assert (Hlen : Z.of_nat (length (days_of st)) = assigned_day tz nlstart data + 1)
    by (unfold days_of; rewrite length_app; cbn; lia).
  destruct (assigned_day_bounds nlstart data) as [B1 B2].
  split; [exact Hlen|]. split.
  - intros x Hx. specialize (B1 x Hx). lia.
  - destruct B2 as [E|(x & Hx & E)]; [left; lia|].
    right. exists x. split; [exact Hx | lia].
Qed.

Lemma elem_of_uncarried before lists day s :
  day ∈ lists -> s ∈ day ->
  s ∈ uncarried before lists \/ before = Some s.
Proof.
  revert before. induction lists as [|d lists IH]; intros before Hday Hs.
  - inversion Hday.
  - assert (Hhere : forall x, x ∈ d ->
              x ∈ uncarried before (d :: lists) \/ before = Some x).
    { intros x Hx. cbn. destruct before as [p|]; cbn.
      - destruct d as [|h rest]; [inversion Hx|].
        destruct (decide (h = p)) as [->|Hne].
        + apply elem_of_cons in Hx as [->|Hx]; [auto|].
          left. apply elem_of_app. auto.
        + left. apply elem_of_app. auto.
      - left. apply elem_of_app. destruct d; auto. }
    apply elem_of_cons in Hday as [->|Hday]; [apply Hhere, Hs|].
    destruct (IH (last d) Hday Hs) as [Hin|Hlast].
    + left. cbn. apply elem_of_app. auto.
    + apply Hhere, last_elem_of, Hlast.
Qed.

(** X11.  [split_days] keeps the data: the day lists, read in order with
    each carried-over head left out, are the input list, slot for slot;
    so every slot of every day list is a slot of the input. *)
Theorem split_days_keeps_data (nlstart : Z) (data : list Timeslot)
    (lists : list (list Timeslot)) (parts : gset Z) :
  split_days tz nlstart data = Ok (lists, parts) ->
  uncarried None lists = data /\
  (forall day s, day ∈ lists -> s ∈ day -> s ∈ data).
Proof.
  intros (st & Hrun & -> & ->)%split_days_Ok.
  pose proof (split_run_uncarried nlstart _ _ Hrun) as Hdata.
  split; [exact Hdata|].
  intros day s Hday Hs.
  destruct (elem_of_uncarried None _ _ _ Hday Hs) as [Hin|[=]].
  rewrite Hdata in Hin. exact Hin.
Qed.

(** X12.  When every slot starts, on the local clock, before the first
    day ends, [split_days] does not raise and returns the data as the one
    day list, with the zero offset and, for each slot that starts after
    the schedule's start, its distance from it. *)
Theorem split_days_one_day (nlstart : Z) (data : list Timeslot) :
  (forall x, x ∈ data -> nlslot x < nlstart + DAY) ->
  exists parts,
    split_days tz nlstart data = Ok ([data], parts) /\
    forall y, y ∈ parts <->
      y = 0 \/ exists x, x ∈ data /\ nlstart < nlslot x /\ y = nlslot x - nlstart.
Proof.
  intros Hday.
  assert (Hzero : forall pre, (forall x, x ∈ pre -> x ∈ data) ->
            assigned_day tz nlstart pre = 0).
  { intros pre Hsub. pose proof (assigned_day_nonneg tz nlstart pre).
    destruct (assigned_day_bounds nlstart pre) as [_ [E|(x & Hx & E)]]; [exact E|].
    assert ((nlslot x - nlstart) / DAY < 1)
      by (apply Z.div_lt_upper_bound; [reflexivity|]; specialize (Hday x (Hsub x Hx)); lia).
    lia. }
  destruct (split_run tz nlstart data) as [st|e] eqn:Hrun.
  - pose proof (split_run_uncarried _ _ _ Hrun) as Hdata.
    destruct (split_run_inv tz _ _ _ Hrun) as [_ [_ P2 P3 _]].
    rewrite Hzero in P2 by auto.
    assert (Hdone : done_day_lists st = [])
      by (destruct (done_day_lists st); [reflexivity | cbn in P2; lia]).
    unfold days_of in Hdata. rewrite Hdone in Hdata. cbn in Hdata.
    rewrite app_nil_r in Hdata.
    exists (partitions st). split.
    + apply split_days_Ok. exists st. split; [exact Hrun|].
      split; [|reflexivity]. unfold days_of. rewrite Hdone, Hdata. reflexivity.
    + intros y. rewrite P3. apply or_iff_compat_l.
      assert (Hst : forall i, assigned_day_start tz nlstart data i = nlstart).
      { intros i. unfold assigned_day_start. rewrite Hzero; [lia|].
        intros x Hx. eapply subseteq_take, Hx. }
      split.
      * intros (i & x & Hi & Hlt & ->). rewrite Hst in *.
        exists x. split; [eapply list_elem_of_lookup_2, Hi | auto].
      * intros (x & [i Hi]%list_elem_of_lookup_1 & Hlt & ->).
        exists i, x. rewrite Hst. auto.
  - exfalso. apply split_run_Raise in Hrun as (_ & i & x & d & Hi & Hd & Hb & _).
    pose proof (assigned_day_nonneg tz nlstart (take i data)).
    specialize (Hday x (list_elem_of_lookup_2 _ _ _ Hi)). day_lia.
Qed.

End DayLists.

(** * Tabulating a well-filled schedule *)

Section WellFilled.

Variable tz : tzinfo.

Abbreviation nlslot s := (nld tz (start_time s)).
Abbreviation nlend s := (nld tz (end_time s)).

Ltac day_lia := unfold DAY in *; lia.

Lemma filled_inv_init nlstart : filled_inv tz nlstart (split_init nlstart).
Proof.
  split.
  - intros [|k] L b H Hb; [|discriminate]. injection H as <-. inversion Hb.
  - intros [|k] L i a b H Ha; [|discriminate]. injection H as <-. discriminate.
  - intros k L a H. discriminate.
Qed.

Lemma filled_inv_rotated nlstart st dl dn :
  split_inv tz nlstart st ->
  filled_inv tz nlstart st ->
  (forall q, last (day_list st) = Some q -> day_end st <= nlend q) ->
  rotate_day tz (day_end st) (day_list st) (done_day_lists st) = Ok (dl, dn) ->
  filled_inv tz nlstart (rotated st dl dn).
Proof.
  intros Hinv [F1 F2 F3] Hreach (q & Hlast & [= -> ->])%rotate_day_Ok.
  assert (Hdays : days_of (rotated st (if nlend q >? day_end st then [q] else [])
                             (done_day_lists st ++ [day_list st]))
                  = days_of st ++ [if nlend q >? day_end st then [q] else []])
    by reflexivity.
  assert (Hlen : length (days_of st) = S (length (done_day_lists st)))
    by (unfold days_of; rewrite length_app; cbn; lia).
  assert (Hcur : days_of st !! length (done_day_lists st) = Some (day_list st))
    by (apply lookup_days_of; auto).
  pose proof (inv_start _ _ _ Hinv) as Hstart.
  pose proof (inv_end _ _ _ Hinv) as Hend.
  split; cbn [rotated done_day_lists partitions]; try rewrite Hdays.
  - intros k L b [HL|[Hk HL]]%lookup_app_Some Hb; [eauto|].
    apply list_lookup_singleton_Some in HL as [Hk' <-].
    destruct (Z.gtb_spec (nlend q) (day_end st)) as [Hgt|Hle]; [|inversion Hb].
    apply list_elem_of_singleton in Hb as ->.
    destruct (F1 _ _ _ Hcur (last_elem_of _ _ Hlast)) as [_ Hpos].
    split; [day_lia | exact Hpos].
  - intros k L i a b [HL|[Hk HL]]%lookup_app_Some Ha Hb; [eauto|].
    apply list_lookup_singleton_Some in HL as [Hk' <-].
    destruct (nlend q >? day_end st); [|discriminate].
    destruct i; discriminate.
  - intros k L a [HL|[Hk HL]]%lookup_app_Some Ha.
    + eapply F3; eauto.
    + apply list_lookup_singleton_Some in HL as [Hk' <-].
      rewrite Hlast in Ha. injection Ha as <-.
      specialize (Hreach q Hlast). day_lia.
Qed.

Lemma filled_inv_appended nlstart st x :
  split_inv tz nlstart st ->
  filled_inv tz nlstart st ->
  nlslot x < nlend x ->
  day_start st < nlend x ->
  (forall q, last (day_list st) = Some q -> nlend q = nlslot x) ->
  filled_inv tz nlstart (appended tz st x).
Proof.
  intros Hinv [F1 F2 F3] Hpos Hafter Hprev.
  assert (Hcur : days_of st !! length (done_day_lists st) = Some (day_list st))
    by (apply lookup_days_of; auto).
  assert (Hnew : forall j L, days_of (appended tz st x) !! j = Some L <->
            done_day_lists st !! j = Some L \/
            (j = length (done_day_lists st) /\ L = day_list st ++ [x]))
    by (intros j L; apply lookup_days_of).
  pose proof (inv_start _ _ _ Hinv) as Hstart.
  assert (Hgrow : forall y, y ∈ partitions st -> y ∈ partitions (appended tz st x)).
  { intros y Hy. cbn. destruct (nlslot x >? day_start st); [|exact Hy].
    apply elem_of_union. auto. }
  split.
  - intros k L b [HL|[-> ->]]%Hnew Hb.
    + eapply F1; [apply lookup_days_of; left; exact HL | exact Hb].
    + apply elem_of_app in Hb as [Hb|Hb]; [eapply F1; eauto|].
      apply list_elem_of_singleton in Hb as ->. split; [lia | exact Hpos].
  - intros k L i a b [HL|[-> ->]]%Hnew Ha Hb.
    + destruct (F2 k L i a b) as [E Hp]; auto.
      apply lookup_days_of. auto.
    + destruct (decide (S i < length (day_list st))%nat) as [Hin|Hout].
      * rewrite lookup_app_l in Ha by lia. rewrite lookup_app_l in Hb by lia.
        destruct (F2 _ _ i a b Hcur Ha Hb) as [E Hp]. auto.
      * pose proof (lookup_lt_Some _ _ _ Hb) as Hlen.
        rewrite length_app in Hlen; cbn in Hlen.
        assert (S i = length (day_list st)) as Hi by lia.
        rewrite lookup_app_l in Ha by lia.
        rewrite lookup_app_r, <- Hi, Nat.sub_diag in Hb by lia.
        injection Hb as <-.
        assert (Hq : last (day_list st) = Some a)
          by (rewrite last_lookup, <- Hi; exact Ha).
        pose proof (Hprev a Hq) as E. split; [exact E|].
        destruct (F1 _ _ _ Hcur (last_elem_of _ _ Hq)) as [Hbase _].
        cbn. destruct (Z.gtb_spec (nlslot x) (day_start st)) as [Hgt|Hle]; [|lia].
        apply elem_of_union. right. apply elem_of_singleton. lia.
  - intros k L a HL Ha. cbn in HL. eapply F3; eauto.
Qed.

(** The partitioner's loop on a schedule that is gap-free from its first
    slot on. *)
Lemma split_run_filled nlstart pre :
  (forall x, head pre = Some x -> nlslot x < nlstart + DAY /\ nlstart < nlend x) ->
  contiguous pre ->
  (forall x, x ∈ pre -> nlslot x < nlend x) ->
  forall st, split_run tz nlstart pre = Ok st -> filled_inv tz nlstart st.
Proof.
  induction pre as [|x pre IH] using rev_ind; intros Hfirst Hgap Hposs st.
  - intros [= <-]. apply filled_inv_init.
  - unfold split_run. rewrite for_each_snoc.
    destruct (for_each (split_slot tz) (split_init nlstart) pre) as [st0|] eqn:Hpre;
      [|discriminate].
    cbn. intros Hslot.
    assert (Hfill0 : filled_inv tz nlstart st0).
    { apply IH; [| | |exact Hpre].
      - intros y Hy. apply Hfirst. destruct pre; [discriminate | exact Hy].
      - intros i a b Ha Hb. apply (Hgap i a b).
        + apply lookup_app_l_Some, Ha.
        + apply lookup_app_l_Some, Hb.
      - intros y Hy. apply Hposs, elem_of_app. auto. }
    destruct (split_run_inv tz _ _ _ Hpre) as [Hinv0 [P1 _ _ _]].
    assert (Hne : done_day_lists st0 = [] \/ day_list st0 <> []).
    { destruct pre as [|p pre'] using rev_ind.
      - left. injection Hpre as <-. reflexivity.
      - right. intros E. rewrite E, last_snoc in P1. discriminate. }
    assert (Hposx : nlslot x < nlend x).
    { apply Hposs, elem_of_app. right. apply list_elem_of_singleton. reflexivity. }
    assert (Hprev : forall q, last pre = Some q -> nlend q = nlslot x).
    { intros q Hq. unfold nld.
      assert (end_time q = start_time x) as ->; [|reflexivity].
      apply (Hgap (pred (length pre)) q x).
      - apply lookup_app_l_Some. rewrite <- last_lookup. exact Hq.
      - assert (0 < length pre)%nat
          by (destruct pre; [discriminate | cbn; lia]).
        rewrite lookup_app_r by lia.
        replace (S (pred (length pre)) - length pre)%nat with 0%nat by lia.
        reflexivity. }
    destruct (split_slot_Ok tz _ _ _ _ Hinv0 Hne Hslot)
      as (st1 & Hrot & -> & Hinv1 & _ & Hlt & _ & _ & Hcase).
    destruct (rotate_while_rule tz
      (fun s => split_inv tz nlstart s /\ filled_inv tz nlstart s /\
                (day_list s = [] \/ last (day_list s) = last pre))
      (nlslot x) st0 st1) as [(_ & Hfill1 & Hlast1) _]; [| |exact Hrot|].
    { split; [exact Hinv0|]. split; [exact Hfill0|]. auto. }
    { intros s dl dn (Hs & Hf & Hl) Hle Hr.
      split; [eapply split_inv_rotated; eassumption|].
      pose proof Hr as Hr'.
      apply rotate_day_Ok in Hr' as (q & Hq & [= -> ->]).
      split.
      - eapply filled_inv_rotated; eauto.
        intros q' Hq'. destruct Hl as [E|E]; [rewrite E in Hq'; discriminate|].
        rewrite E in Hq'. rewrite (Hprev q' Hq'). exact Hle.
      - cbn. destruct (nlend q >? day_end s); [|auto].
        right. cbn. destruct Hl as [E|E]; [rewrite E in Hq; discriminate|].
        congruence. }
    apply filled_inv_appended; auto.
    + destruct Hcase as [->|[Hge _]]; [|lia].
      destruct (last pre) as [p|] eqn:Hp.
      * assert (Hcur : days_of st0 !! length (done_day_lists st0) = Some (day_list st0))
          by (apply lookup_days_of; auto).
        destruct (fi_ends _ _ _ Hfill0 _ _ _ Hcur (last_elem_of _ _ P1)) as [Hb _].
        rewrite (inv_start _ _ _ Hinv0). pose proof (Hprev p eq_refl). lia.
      * apply last_None in Hp. subst pre. injection Hpre as <-. cbn.
        apply (Hfirst x eq_refl).
    + intros q Hq. apply Hprev. destruct Hlast1 as [E|E]; [|congruence].
      rewrite E in Hq. discriminate.
Qed.

Lemma day_filled_tail parts base b rest :
  day_filled tz parts base (b :: rest) -> day_filled tz parts base rest.
Proof.
  intros [D1 D2 D3]. split.
  - intros x Hx. apply D1, list_elem_of_further, Hx.
  - intros i x y Hx Hy. apply (D2 (S i) x y Hx Hy).
  - intros a Ha. apply D3. destruct rest; [discriminate|].
    rewrite last_cons_cons. exact Ha.
Qed.

Lemma row_date_empty_table_Ok nlstart parts n k r t :
  row_date (empty_table nlstart parts n) k r = Ok t ->
  exists i, sorted parts !! r = Some i /\ t = nlstart + Z.of_nat k * DAY + i.
Proof.
  rewrite row_date_empty_table.
  destruct (sorted parts !! r) as [i|]; [|discriminate].
  intros [= <-]. exists i. split; [reflexivity|]. unfold timedelta_days. lia.
Qed.

Lemma row_date_empty_table_lt nlstart parts n k r1 r2 t1 t2 :
  row_date (empty_table nlstart parts n) k r1 = Ok t1 ->
  row_date (empty_table nlstart parts n) k r2 = Ok t2 ->
  t1 < t2 -> (r1 < r2)%nat.
Proof.
  intros (i1 & H1 & ->)%row_date_empty_table_Ok (i2 & H2 & ->)%row_date_empty_table_Ok Hlt.
  destruct (Nat.lt_trichotomy r1 r2) as [?|[->|Hgt]]; [assumption| |].
  - rewrite H1 in H2. injection H2 as ->. lia.
  - pose proof (sorted_increasing _ _ _ _ _ H2 H1 Hgt). lia.
Qed.

(** The slots of a day that fits the rows are placed without an error,
    the cursor moves for each of them, and each slot after the first is
    placed from the row that begins at its local start. *)
Lemma place_slots_filled nlstart parts n k :
  (k < n)%nat ->
  (forall i, i ∈ parts -> i < DAY) ->
  forall day table cur,
  same_frame (empty_table nlstart parts n) table ->
  day_filled tz parts (nlstart + Z.of_nat k * DAY) day ->
  (forall b, head day = Some b ->
     exists t, row_date (empty_table nlstart parts n) k cur = Ok t /\ t < nlend b) ->
  exists table' cur',
    for_each (place_slot tz k) (table, cur) day = Ok (table', cur') /\
    (forall j s, day !! j = Some s ->
       (foldl (stop_row tz (empty_table nlstart parts n) k) cur (take j day)
        < foldl (stop_row tz (empty_table nlstart parts n) k) cur (take (S j) day))%nat) /\
    (forall j s, day !! S j = Some s ->
       row_date (empty_table nlstart parts n) k
         (foldl (stop_row tz (empty_table nlstart parts n) k) cur (take (S j) day))
       = Ok (nlslot s)).
Proof.
  intros Hk Hoff. set (E := empty_table nlstart parts n).
  induction day as [|b rest IH]; intros table cur Hframe Hday Hcur.
  - exists table, cur. split; [reflexivity|].
    split; intros j s H; discriminate.
  - destruct (Hcur b eq_refl) as (t0 & Ht0 & Hlt0).
    destruct Hframe as (Hlen & Hsome & Htimes).
    assert (Hdate : forall r, row_date table k r = row_date E k r)
      by (intros r; rewrite !row_date_cell, Htimes; reflexivity).
    destruct (advance_row E k (nlend b) cur) as [stop exit] eqn:Hadv.
    assert (Hadv' : advance_row table k (nlend b) cur = (stop, exit))
      by (rewrite <- Hadv; apply advance_row_times, Htimes).
    destruct (advance_row_spec _ _ _ _ _ _ Hadv) as (Hge & Hpassed & Hexit).
    assert (Hmoved : (cur < stop)%nat).
    { destruct (decide (stop = cur)) as [->|]; [|lia]. exfalso.
      destruct exit as [[]|e].
      - destruct Hexit as (t & Ht & Hle). rewrite Ht0 in Ht. injection Ht as <-. lia.
      - rewrite Ht0 in Hexit. discriminate. }
    assert (Hcell : is_Some (cell_at table cur (SCHEDULE_DAY_OFFSET + k))).
    { apply Hsome. unfold E. rewrite cell_at_empty_table.
      apply row_date_empty_table_Ok in Ht0 as (i & -> & _).
      unfold SCHEDULE_DAY_OFFSET. cbn. rewrite decide_True by exact Hk. eauto. }
    assert (Hadd : exists table1,
              add_to_table table k cur b (Z.of_nat stop - Z.of_nat cur) = Ok table1).
    { destruct (add_to_table table k cur b _) as [t1|e] eqn:Ha; [eauto|].
      apply add_to_table_Raise in Ha as [_ Ha]. rewrite Ha in Hcell.
      destruct Hcell as [? [=]]. }
    destruct Hadd as [table1 Hadd].
    assert (Hframe1 : same_frame E table1).
    { apply add_to_table_kept in Hadd as [(L1 & S1 & T1) _].
      split; [congruence|]. split.
      - intros r c. rewrite S1. apply Hsome.
      - intros r. rewrite T1. apply Htimes. }
    assert (Hstop : stop_row tz E k cur b = stop)
      by (unfold stop_row; rewrite Hadv; reflexivity).
    destruct rest as [|b' rest'].
    + (* the last slot of the day: the cursor runs past the last row *)
      assert (Hbottom : exit = Raise IndexError).
      { destruct exit as [[]|e].
        - destruct Hexit as (t & Ht & Hle).
          apply row_date_empty_table_Ok in Ht as (i & Hi & ->).
          assert (i < DAY) by (apply Hoff, sorted_elem; eapply list_elem_of_lookup_2, Hi).
          pose proof (df_last _ _ _ _ Hday b eq_refl). lia.
        - f_equal. unfold E in Hexit. rewrite row_date_empty_table in Hexit.
          destruct (sorted parts !! stop); [discriminate | congruence]. }
      subst exit. exists table1, stop. split.
      * cbn [for_each]. rewrite (place_slot_cases tz _ _ _ _ _ _ Hadv'), Hadd.
        reflexivity.
      * split.
        -- intros [|j] s Hs; [|discriminate]. cbn. rewrite Hstop. exact Hmoved.
        -- intros j s Hs. discriminate.
    + (* a slot with a neighbour: the cursor stops where the neighbour starts *)
      destruct (df_chain _ _ _ _ Hday 0%nat b b' eq_refl eq_refl) as [Hnext Hreg].
      apply sorted_elem, list_elem_of_lookup_1 in Hreg as [r Hr].
      assert (Hrow : row_date E k r = Ok (nlend b)).
      { unfold E. rewrite row_date_empty_table, Hr. f_equal.
        unfold timedelta_days. lia. }
      assert (Hcr : (cur < r)%nat)
        by (eapply row_date_empty_table_lt; [exact Ht0 | exact Hrow | exact Hlt0]).
      assert (Hsr : (stop <= r)%nat).
      { destruct (decide (stop <= r)%nat) as [|Hn]; [assumption|]. exfalso.
        destruct (Hpassed r ltac:(lia)) as (t & Ht & Hlt).
        rewrite Hrow in Ht. injection Ht as <-. lia. }
      assert (Hexact : exit = Ok () /\ row_date E k stop = Ok (nlend b)).
      { assert (Hin : exists t, row_date E k stop = Ok t).
        { unfold E. rewrite row_date_empty_table.
          pose proof (lookup_lt_Some _ _ _ Hr) as Hlr.
          destruct (lookup_lt_is_Some_2 (sorted parts) stop ltac:(lia)) as [i ->].
          eauto. }
        destruct Hin as [t Ht]. destruct exit as [[]|e].
        - split; [reflexivity|]. destruct Hexit as (t' & Ht' & Hle).
          rewrite Ht in Ht'. injection Ht' as <-.
          destruct (decide (stop = r)) as [->|Hne]; [exact Hrow|]. exfalso.
          assert (r <= stop)%nat; [|lia].
          destruct (decide (r <= stop)%nat) as [|Hn]; [assumption|].
          assert (t < nlend b); [|lia].
          apply row_date_empty_table_Ok in Ht as (i & Hi & ->).
          apply row_date_empty_table_Ok in Hrow as (i' & Hi' & Hrow).
          pose proof (sorted_increasing _ _ _ _ _ Hi Hi' ltac:(lia)). lia.
        - rewrite Ht in Hexit. discriminate. }
      destruct Hexact as [-> Hstopdate].
      destruct (IH table1 stop Hframe1 (day_filled_tail _ _ _ _ Hday))
        as (table' & cur' & Hrun & Hmove & Hstart).
      { intros b0 [= <-]. exists (nlend b). split; [exact Hstopdate|].
        rewrite Hnext. apply (df_ends _ _ _ _ Hday).
        apply list_elem_of_further, list_elem_of_here. }
      exists table', cur'. split.
      * cbn [for_each]. rewrite (place_slot_cases tz _ _ _ _ _ _ Hadv').
        rewrite Hdate, Hstopdate.
        destruct (Z.gtb_spec (nlend b) (nlend b)); [lia|].
        rewrite Hadd. cbn. exact Hrun.
      * split.
        -- intros [|j] s Hs; cbn [take foldl]; rewrite Hstop.
           ++ exact Hmoved.
           ++ apply (Hmove j s Hs).
        -- intros [|j] s Hs; cbn [take foldl]; rewrite Hstop.
           ++ injection Hs as <-. cbn. rewrite Hstopdate, Hnext. reflexivity.
           ++ apply (Hstart j s Hs).
Qed.

Lemma row_date_empty_table_zero nlstart parts n k :
  0 ∈ parts -> (forall i, i ∈ parts -> 0 <= i) ->
  row_date (empty_table nlstart parts n) k 0 = Ok (nlstart + Z.of_nat k * DAY).
Proof.
  intros Hzero Hnonneg. rewrite row_date_empty_table.
  apply sorted_elem, list_elem_of_lookup_1 in Hzero as [r Hr].
  destruct (sorted parts !! 0%nat) as [i|] eqn:Hi.
  - assert (i = 0) as ->; [|f_equal; unfold timedelta_days; lia].
    destruct r as [|r]; [congruence|].
    pose proof (sorted_increasing _ _ _ _ _ Hi Hr ltac:(lia)).
    assert (0 <= i) by (apply Hnonneg, sorted_elem; eapply list_elem_of_lookup_2, Hi).
    lia.
  - apply lookup_ge_None_1 in Hi. apply lookup_lt_Some in Hr. lia.
Qed.

Lemma populate_table_filled nlstart parts n lists :
  (length lists <= n)%nat ->
  0 ∈ parts -> (forall i, i ∈ parts -> 0 <= i < DAY) ->
  (forall k day, lists !! k = Some day ->
     day_filled tz parts (nlstart + Z.of_nat k * DAY) day) ->
  exists table',
    populate_table tz (empty_table nlstart parts n) lists = Ok table' /\
    forall k day, lists !! k = Some day ->
      (forall j s, day !! j = Some s ->
         (cursor_after tz (empty_table nlstart parts n) k (take j day)
          < cursor_after tz (empty_table nlstart parts n) k (take (S j) day))%nat) /\
      (forall j s, day !! S j = Some s ->
         row_date (empty_table nlstart parts n) k
           (cursor_after tz (empty_table nlstart parts n) k (take (S j) day))
         = Ok (nlslot s)).
Proof.
  intros Hn Hzero Hoff. set (E := empty_table nlstart parts n).
  induction lists as [|day lists IH] using rev_ind; intros Hdays.
  - exists E. split; [reflexivity|]. intros k day H. discriminate.
  - rewrite length_app in Hn; cbn in Hn.
    destruct IH as (T & HT & Hold); [lia| |].
    { intros k d Hd. apply Hdays, lookup_app_l_Some, Hd. }
    assert (Hframe : same_frame E T) by (apply populate_table_kept in HT as [F _]; exact F).
    assert (Hday : day_filled tz parts (nlstart + Z.of_nat (length lists) * DAY) day).
    { apply Hdays. rewrite lookup_app_r, Nat.sub_diag by lia. reflexivity. }
    destruct (place_slots_filled nlstart parts n (length lists) ltac:(lia)
                (fun i Hi => proj2 (Hoff i Hi)) day T 0%nat Hframe Hday)
      as (T' & cur' & Hrun & Hmove & Hstart).
    { intros b Hb. exists (nlstart + Z.of_nat (length lists) * DAY). split.
      - apply row_date_empty_table_zero; [exact Hzero|].
        intros i Hi. apply (Hoff i Hi).
      - apply (df_ends _ _ _ _ Hday). destruct day; [discriminate|].
        injection Hb as ->. apply list_elem_of_here. }
    exists T'. split.
    + unfold populate_table. rewrite enumerate_snoc, for_each_snoc.
      fold (populate_table tz E lists). rewrite HT. cbn.
      unfold populate_table_day. rewrite Hrun. reflexivity.
    + intros k d [Hd|[Hge Hd]]%lookup_app_Some; [apply Hold, Hd|].
      apply list_lookup_singleton_Some in Hd as [Hk <-].
      assert (k = length lists) as -> by lia.
      split; [exact Hmove | exact Hstart].
Qed.

Lemma well_filled_no_empty_day nlstart slots :
  well_filled tz nlstart slots -> ~ closes_empty_day tz nlstart slots.
Proof.
  intros [W1 W2 W3 _] (i & x & d & Hi & Hd & Hb & Hprev).
  pose proof (assigned_day_nonneg tz nlstart (take i slots)) as Hk.
  destruct i as [|i].
  - destruct (W1 x) as [Hx _]; [destruct slots; [discriminate | exact Hi]|].
    day_lia.
  - pose proof (lookup_lt_Some _ _ _ Hi) as Hlen.
    assert (Hp : exists p, slots !! i = Some p)
      by (apply lookup_lt_is_Some_2; lia).
    destruct Hp as [p Hp].
    assert (Hlast : last (take (S i) slots) = Some p).
    { rewrite last_lookup, length_take, Nat.min_l by lia. cbn.
      rewrite lookup_take_lt by lia. exact Hp. }
    rewrite Hlast in Hprev. destruct Hprev as [_ Hle].
    assert (nlend p = nlslot x) as E.
    { pose proof (W2 i p x Hp Hi) as E. unfold range_end, range_start in E.
      rewrite E. reflexivity. }
    day_lia.
Qed.

(** X13.  On a well-filled schedule [tabulate] raises nothing and
    returns a table in which every slot of every day list is found: at
    row 0 when it is its day's first, otherwise at the row that begins at
    its local start, in each case with a span of at least one row. *)
Theorem tabulate_well_filled (schedule : Schedule) (slots : list Timeslot) :
  data schedule = Slots slots ->
  well_filled tz (nld tz (start schedule)) slots ->
  exists lists parts table,
    split_days tz (nld tz (start schedule)) slots = Ok (lists, parts) /\
    tabulate tz schedule = Ok (Table table) /\
    forall d day j s, lists !! d = Some day -> day !! j = Some s ->
      let first_row :=
        cursor_after tz
          (empty_table (nld tz (start schedule)) parts (length lists)) d
          (take j day) in
      (exists span, 1 <= span /\
         cell_at table first_row (SCHEDULE_DAY_OFFSET + d) = Some (CSlot s span)) /\
      (j = 0%nat -> first_row = 0%nat) /\
      (j <> 0%nat -> row_date table d first_row = Ok (nlslot s)).
Proof.
  intros Hdata Hwf. set (nlstart := nld tz (start schedule)) in *.
  destruct (split_run tz nlstart slots) as [st|e] eqn:Hrun.
  2:{ exfalso. apply split_run_Raise in Hrun as [_ Hc].
      exact (well_filled_no_empty_day _ _ Hwf Hc). }
  destruct (split_run_inv tz _ _ _ Hrun) as [Hinv [P1 P2 _ _]].
  assert (Hfill : filled_inv tz nlstart st).
  { destruct Hwf as [W1 W2 W3 _]. eapply split_run_filled; eauto. }
  assert (Hsplit : split_days tz nlstart slots = Ok (days_of st, partitions st))
    by (apply split_days_Ok; eauto).
  assert (Hdays : forall k day, days_of st !! k = Some day ->
            day_filled tz (partitions st) (nlstart + Z.of_nat k * DAY) day).
  { intros k day Hk. split.
    - intros b Hb. apply (fi_ends _ _ _ Hfill _ _ _ Hk Hb).
    - intros i a b Ha Hb. apply (fi_chain _ _ _ Hfill _ _ _ _ _ Hk Ha Hb).
    - intros a Ha. apply lookup_days_of in Hk as [Hk|[-> ->]].
      + pose proof (fi_closed _ _ _ Hfill _ _ _ Hk Ha). lia.
      + rewrite P1 in Ha. pose proof (wf_last _ _ _ Hwf a Ha) as Hl.
        rewrite <- P2 in Hl. lia. }
  destruct (populate_table_filled nlstart (partitions st) (length (days_of st))
              (days_of st) ltac:(lia) (inv_zero _ _ _ Hinv) (inv_offsets _ _ _ Hinv) Hdays)
    as (table & Hpop & Hrows).
  exists (days_of st), (partitions st), table.
  split; [exact Hsplit|]. split.
  - unfold tabulate. rewrite Hdata. fold nlstart. rewrite Hsplit. cbn.
    rewrite Hpop. reflexivity.
  - intros d day j s Hd Hj.
    destruct (Hrows d day Hd) as [Hmove Hstart].
    destruct (populate_table_spec tz _ _ _ _ _ Hpop) as (_ & Htimes & _ & _ & Hfound).
    destruct (Hfound d day Hd j s Hj) as [_ Hcell].
    specialize (Hmove j s Hj). split; [|split].
    + eexists. split; [|apply Hcell, Hmove]. lia.
    + intros ->. reflexivity.
    + intros Hne. destruct j as [|j]; [contradiction|].
      rewrite row_date_cell, Htimes, <- row_date_cell. apply (Hstart j s Hj).
Qed.

End WellFilled.

(** * Further properties of the local-time normaliser and the gap filler *)

Section LocalTimeAndFill.

Variable tz : tzinfo.


Lemma fill_from_sublist timeslots : forall reached end_,
  timeslots `sublist_of` fill_from reached timeslots end_ /\
  (forall s, s ∈ fill_from reached timeslots end_ ->
     s ∈ timeslots \/ show_type_name s = "filler"%string) /\
  (length timeslots <= length (fill_from reached timeslots end_)
   <= 2 * length timeslots + 1)%nat.
Proof.
  induction timeslots as [|x rest IH]; intros reached end_; cbn [fill_from].
  - destruct (reached <? end_); split; try apply sublist_nil_l.
    + split; [|cbn; lia]. intros s Hs. apply list_elem_of_singleton in Hs as ->. auto.
    + split; [|cbn; lia]. intros s Hs. inversion Hs.
  - destruct (IH (range_end x) end_) as (Hsub & Hmem & Hlen).
    assert (Hcons : x :: rest `sublist_of` x :: fill_from (range_end x) rest end_)
      by (apply sublist_skip, Hsub).
    assert (Hmem' : forall s, s ∈ x :: fill_from (range_end x) rest end_ ->
              s ∈ x :: rest \/ show_type_name s = "filler"%string).
    { intros s [->|Hs]%elem_of_cons; [left; apply list_elem_of_here|].
      destruct (Hmem s Hs); [left; apply list_elem_of_further|]; auto. }
    destruct (reached <? range_start x); cbn [app length] in *.
    + split; [apply sublist_cons, Hcons|]. split; [|lia].
      intros s [->|Hs]%elem_of_cons; [right; reflexivity | auto].
    + split; [exact Hcons|]. split; [exact Hmem' | lia].
Qed.

(** X16.  What [fill] returns holds the timeslots it was given, all of
    them and in their order; every other slot in it is a filler; it is at
    least as long as the input and has at most one slot more than twice
    its length.  [fill] raises, and then [ValueError], exactly when the
    range starts after it ends. *)
Theorem fill_keeps_timeslots (timeslots : list Timeslot) (start end_ : Z) :
  (forall filled, fill timeslots start end_ = Ok filled ->
     timeslots `sublist_of` filled /\
     (forall s, s ∈ filled -> s ∈ timeslots \/ show_type_name s = "filler"%string) /\
     (length timeslots <= length filled <= 2 * length timeslots + 1)%nat) /\
  (forall e, fill timeslots start end_ = Raise e <-> e = ValueError /\ end_ < start).
Proof.
  unfold fill. destruct (Z.gtb_spec start end_) as [Hgt|Hle]; split.
  - discriminate.
  - intros e. split; [intros [= <-]; auto | intros [-> _]; reflexivity].
  - intros filled. destruct timeslots as [|x rest].
    + intros [= <-]. split; [apply sublist_nil_l|]. split; [|cbn; lia].
      intros s Hs. apply list_elem_of_singleton in Hs as ->. auto.
    + intros [= <-]. exact (fill_from_sublist (x :: rest) start end_).
  - intros e. split; [destruct timeslots; discriminate | intros [_ ?]; lia].
Qed.

Lemma fill_from_last timeslots : forall reached end_ z,
  last (fill_from reached timeslots end_) = Some z -> end_ <= range_end z.
Proof.
  induction timeslots as [|x rest IH]; intros reached end_ z; cbn [fill_from].
  - destruct (Z.ltb_spec reached end_); [|discriminate].
    intros [= <-]. unfold range_end, end_time, filler_slot; cbn. lia.
  - rewrite last_app.
    destruct (last (x :: fill_from (range_end x) rest end_)) as [y|] eqn:Hy.
    2:{ apply last_None in Hy. discriminate. }
    intros [= <-].
    destruct (fill_from (range_end x) rest end_) as [|f fs] eqn:Hf.
    + cbn in Hy. injection Hy as <-.
      destruct rest as [|x' rest']; cbn [fill_from] in Hf.
      * destruct (Z.ltb_spec (range_end x) end_); [discriminate | assumption].
      * destruct (range_end x <? range_start x'); discriminate.
    + rewrite last_cons_cons in Hy. apply (IH (range_end x) end_). rewrite Hf. exact Hy.
Qed.

(** X17.  For a range that does not start after it ends, what [fill]
    returns is not empty, its first slot starts at or before the start of
    the range and its last slot ends at or after the end: the first slot
    is a filler from the start of the range when the range starts before
    the first timeslot, and is the first timeslot otherwise. *)
Theorem fill_covers_range (timeslots : list Timeslot) (start end_ : Z) :
  start <= end_ ->
  exists filled first_slot last_slot,
    fill timeslots start end_ = Ok filled /\
    head filled = Some first_slot /\ last filled = Some last_slot /\
    range_start first_slot <= start /\ end_ <= range_end last_slot /\
    (forall x, head timeslots = Some x ->
       first_slot = if start <? range_start x
                    then filler_slot start (range_start x) else x).
Proof.
  intros Hle. unfold fill. destruct (Z.gtb_spec start end_) as [Hgt|_]; [lia|].
  destruct timeslots as [|x rest].
  - exists [filler_slot start end_], (filler_slot start end_), (filler_slot start end_).
    split; [reflexivity|]. split; [reflexivity|]. split; [reflexivity|].
    unfold range_start, range_end, end_time, filler_slot; cbn.
    split; [lia|]. split; [lia|]. intros x [=].
  - destruct (last (fill_from start (x :: rest) end_)) as [z|] eqn:Hz.
    2:{ apply last_None in Hz. cbn [fill_from] in Hz.
        destruct (start <? range_start x); discriminate. }
    pose proof (fill_from_last _ _ _ _ Hz) as Hend.
    exists (fill_from start (x :: rest) end_),
           (if start <? range_start x then filler_slot start (range_start x) else x), z.
    split; [reflexivity|]. cbn [fill_from] in Hz |- *. revert Hz.
    destruct (Z.ltb_spec start (range_start x)) as [Hlt|Hge]; intros Hz.
    + split; [reflexivity|]. split; [exact Hz|]. split; [cbn; lia|].
      split; [exact Hend|]. intros y [= <-].
      destruct (Z.ltb_spec start (range_start x)); [reflexivity | lia].
    + split; [reflexivity|]. split; [exact Hz|]. split; [exact Hge|].
      split; [exact Hend|]. intros y [= <-].
      destruct (Z.ltb_spec start (range_start x)); [lia | reflexivity].
Qed.

End LocalTimeAndFill.

(** * The further properties at the sample schedules *)

Section FurtherSamples.

Lemma empty_table_shape_witness :
  length (empty_table 0 sample_offsets 2) = size sample_offsets /\
  hours 1 < hours 23.
Proof.
  split.
  - apply (proj1 (empty_table_shape 0 sample_offsets 2)).
  - apply (proj2 (proj2 (proj2 (empty_table_shape 0 sample_offsets 2)))
             1%nat 2%nat (hours 1) (hours 23)).
    + vm_compute. reflexivity.
    + vm_compute. reflexivity.
    + lia.
Defined.

Lemma row_date_of_empty_table_witness :
  hours 25 < hours 47.
Proof.
  apply (proj1 (proj2 (proj2 (row_date_of_empty_table 0 sample_offsets 2 1)))
           1%nat 2%nat (hours 25) (hours 47)).
  - vm_compute. reflexivity.
  - vm_compute. reflexivity.
  - lia.
Defined.


Lemma advance_row_cursor_witness :
  (0 <= 2)%nat /\
  ((0 <= length (empty_table 0 sample_offsets 2))%nat ->
   (2 <= length (empty_table 0 sample_offsets 2))%nat) /\
  (forall r, (0 <= r < 2)%nat ->
     exists t, row_date (empty_table 0 sample_offsets 2) 0 r = Ok t /\ t < hours 23) /\
  (exists t, row_date (empty_table 0 sample_offsets 2) 0 2 = Ok t /\ hours 23 <= t).
Proof.
  apply (advance_row_cursor (empty_table 0 sample_offsets 2) 0 (hours 23) 0 2 (Ok ())).
  vm_compute. reflexivity.
Defined.

Lemma place_slot_inconsistency_witness :
  exists stop t t',
    advance_row (empty_table 0 morning_offsets 1) 0 (nld utc (end_time first_show)) 0
    = (stop, Ok ()) /\
    row_date (empty_table 0 morning_offsets 1) 0 stop = Ok t /\
    nld utc (end_time first_show) < t /\
    row_date (empty_table 0 morning_offsets 1) 0 (S stop) = Ok t'.
Proof.
  apply (proj1 (place_slot_inconsistency utc 0 (empty_table 0 morning_offsets 1)
                  0 first_show)).
  vm_compute. reflexivity.
Defined.

Lemma place_slot_success_witness :
  exists exit,
    advance_row (empty_table 0 sample_offsets 2) 0 (nld utc (end_time evening_show)) 0
    = (2%nat, exit) /\
    (exit = Raise IndexError \/
     (exit = Ok () /\
      row_date (empty_table 0 sample_offsets 2) 0 2 = Ok (nld utc (end_time evening_show)))) /\
    add_to_table (empty_table 0 sample_offsets 2) 0 0 evening_show
      (Z.of_nat 2 - Z.of_nat 0)
    = Ok [[CTime 0; CSlot evening_show 2; CNone];
          [CTime (hours 1); CNone; CNone];
          [CTime (hours 23); CNone; CNone]].
Proof.
  apply (proj1 (place_slot_success utc 0 (empty_table 0 sample_offsets 2) 0
                  evening_show _ 2)).
  vm_compute. reflexivity.
Defined.

Lemma place_slot_past_the_rows_witness :
  place_slot utc 0 ([[CTime 0; CNone]], 1%nat) day_show = Raise IndexError /\
  for_each (place_slot utc 0) ([[CTime 0; CNone]], 0%nat)
    [day_show; late_show; first_show] = Raise IndexError.
Proof.
  split.
  - apply (proj1 (place_slot_past_the_rows utc 0 [[CTime 0; CNone]] 1 day_show)).
    vm_compute. lia.
  - apply (proj2 (place_slot_past_the_rows utc 0 [[CTime 0; CNone]] 0 day_show)
             [[CTime 0; CSlot day_show 1]] 1%nat).
    + vm_compute. reflexivity.
    + vm_compute. lia.
Defined.

Lemma populate_table_frame_witness :
  populate_table utc (empty_table 0 sample_offsets 2) sample_days = Ok sample_table /\
  (length sample_table = length (empty_table 0 sample_offsets 2) /\
   (forall r c, is_Some (cell_at sample_table r c)
                <-> is_Some (cell_at (empty_table 0 sample_offsets 2) r c)) /\
   (forall r, cell_at sample_table r SCHEDULE_TIME_COL
              = cell_at (empty_table 0 sample_offsets 2) r SCHEDULE_TIME_COL) /\
   (forall r c, cell_at sample_table r c <> cell_at (empty_table 0 sample_offsets 2) r c ->
      (SCHEDULE_DAY_OFFSET <= c < SCHEDULE_DAY_OFFSET + length sample_days)%nat /\
      exists s k, cell_at sample_table r c = Some (CSlot s k))).
Proof.
  assert (H : populate_table utc (empty_table 0 sample_offsets 2) sample_days
              = Ok sample_table)
    by (vm_compute; reflexivity).
  split; [exact H|].
  apply (populate_table_frame utc (empty_table 0 sample_offsets 2) sample_days
           sample_table H).
Defined.

Lemma populate_table_needs_columns_witness :
  exists row, empty_table 0 sample_offsets 2 !! 0%nat = Some row /\
              (SCHEDULE_DAY_OFFSET + 1 < length row)%nat.
Proof.
  apply (populate_table_needs_columns utc (empty_table 0 sample_offsets 2)
           sample_days sample_table) with (day := [midnight_show; morning_filler]).
  - vm_compute. reflexivity.
  - reflexivity.
  - discriminate.
Defined.

Lemma tabulate_dimensions_witness :
  exists slots lists parts,
    data sample_schedule = Slots slots /\
    split_days utc (nld utc (start sample_schedule)) slots = Ok (lists, parts) /\
    length sample_table = size parts /\
    (1 <= length sample_table)%nat /\
    forall r row, sample_table !! r = Some row -> length row = S (length lists).
Proof.
  apply (tabulate_dimensions utc sample_schedule sample_table).
  vm_compute. reflexivity.
Defined.

Lemma split_days_day_count_witness :
  split_days utc 0 sample_week = Ok (sample_days, sample_offsets) /\
  (Z.of_nat (length sample_days) = assigned_day utc 0 sample_week + 1 /\
   (forall x, x ∈ sample_week ->
      (nld utc (start_time x) - 0) / DAY < Z.of_nat (length sample_days)) /\
   (length sample_days = 1%nat \/
    exists x, x ∈ sample_week /\
      Z.of_nat (length sample_days) = (nld utc (start_time x) - 0) / DAY + 1)).
Proof.
  assert (H : split_days utc 0 sample_week = Ok (sample_days, sample_offsets))
    by (vm_compute; reflexivity).
  split; [exact H|].
  apply (split_days_day_count utc 0 sample_week sample_days sample_offsets H).
Defined.

Lemma split_days_keeps_data_witness :
  split_days utc 0 sample_week = Ok (sample_days, sample_offsets) /\
  (uncarried None sample_days = sample_week /\
   (forall day s, day ∈ sample_days -> s ∈ day -> s ∈ sample_week)).
Proof.
  assert (H : split_days utc 0 sample_week = Ok (sample_days, sample_offsets))
    by (vm_compute; reflexivity).
  split; [exact H|].
  apply (split_days_keeps_data utc 0 sample_week sample_days sample_offsets H).
Defined.

Lemma split_days_one_day_witness :
  exists parts,
    split_days utc 0 [early_filler; day_show] = Ok ([[early_filler; day_show]], parts) /\
    forall y, y ∈ parts <->
      y = 0 \/
      exists x, x ∈ [early_filler; day_show] /\
        0 < nld utc (start_time x) /\ y = nld utc (start_time x) - 0.
Proof.
  apply (split_days_one_day utc 0 [early_filler; day_show]).
  intros x Hx.
  apply elem_of_cons in Hx as [->|Hx]; [vm_compute; reflexivity|].
  apply elem_of_cons in Hx as [->|Hx]; [vm_compute; reflexivity|].
  inversion Hx.
Defined.

Lemma sample_week_well_filled : well_filled utc 0 sample_week.
Proof.
  split.
  - intros x [= <-]. split; vm_compute; reflexivity.
  - intros [|[|[|i]]] p q Hp Hq; try discriminate;
      injection Hp as <-; injection Hq as <-; vm_compute; reflexivity.
  - intros x Hx.
    apply elem_of_cons in Hx as [->|Hx]; [vm_compute; reflexivity|].
    apply elem_of_cons in Hx as [->|Hx]; [vm_compute; reflexivity|].
    apply elem_of_cons in Hx as [->|Hx]; [vm_compute; reflexivity|].
    inversion Hx.
  - intros x [= <-]. vm_compute. discriminate.
Defined.

Lemma tabulate_well_filled_witness :
  exists lists parts table,
    split_days utc (nld utc (start sample_schedule)) sample_week = Ok (lists, parts) /\
    tabulate utc sample_schedule = Ok (Table table) /\
    forall d day j s, lists !! d = Some day -> day !! j = Some s ->
      let first_row :=
        cursor_after utc
          (empty_table (nld utc (start sample_schedule)) parts (length lists)) d
          (take j day) in
      (exists span, 1 <= span /\
         cell_at table first_row (SCHEDULE_DAY_OFFSET + d) = Some (CSlot s span)) /\
      (j = 0%nat -> first_row = 0%nat) /\
      (j <> 0%nat -> row_date table d first_row = Ok (nld utc (start_time s))).
Proof.
  apply (tabulate_well_filled utc sample_schedule sample_week).
  - reflexivity.
  - exact sample_week_well_filled.
Defined.


Lemma fill_keeps_timeslots_witness :
  [slot_between "show" (hours 9) (hours 10)]
  `sublist_of` [filler_slot (hours 8) (hours 9);
                slot_between "show" (hours 9) (hours 10);
                filler_slot (hours 10) (hours 11)] /\
  (forall s, s ∈ [filler_slot (hours 8) (hours 9);
                  slot_between "show" (hours 9) (hours 10);
                  filler_slot (hours 10) (hours 11)] ->
     s ∈ [slot_between "show" (hours 9) (hours 10)]
     \/ show_type_name s = "filler"%string) /\
  (length [slot_between "show" (hours 9) (hours 10)]
   <= length [filler_slot (hours 8) (hours 9);
              slot_between "show" (hours 9) (hours 10);
              filler_slot (hours 10) (hours 11)]
   <= 2 * length [slot_between "show" (hours 9) (hours 10)] + 1)%nat.
Proof.
  apply (proj1 (fill_keeps_timeslots [slot_between "show" (hours 9) (hours 10)]
                  (hours 8) (hours 11))).
  reflexivity.
Defined.

Lemma fill_covers_range_witness :
  exists filled first_slot last_slot,
    fill [slot_between "show" (hours 9) (hours 10)] (hours 8) (hours 11) = Ok filled /\
    head filled = Some first_slot /\ last filled = Some last_slot /\
    range_start first_slot <= hours 8 /\ hours 11 <= range_end last_slot /\
    (forall x, head [slot_between "show" (hours 9) (hours 10)] = Some x ->
       first_slot = if hours 8 <? range_start x
                    then filler_slot (hours 8) (range_start x) else x).
Proof.
  apply (fill_covers_range [slot_between "show" (hours 9) (hours 10)]
           (hours 8) (hours 11)).
  vm_compute. discriminate.
Defined.

End FurtherSamples.
